(** * click-option-group: the declarative registration engine

    A shallow embedding of [click_option_group/_decorators.py]: the
    [optgroup] manager object ([_OptGroup]) with its two decorators
    [group] / [__call__] and [option], the placeholder option
    [_NotAttachedOption], and the bookkeeping they share.

    Python objects are modelled as follows.
    - A decorated function (or a click command wrapping it) is identified
      with its callback, a function object with an identity and a
      [__name__]; its recorded parameter list ([__click_params__], or
      [params] of a command) lives in the store [click_params].
    - The two [defaultdict(list)] of the manager are finite maps from the
      identity of the callback to lists.
    - Exceptions and the mutable store are threaded by the monad [M]:
      a computation returns a value or raises, and the store it leaves
      behind is kept in both cases, as in Python. *)

From Stdlib Require Import String Ascii.
From stdpp Require Import base option list gmap strings.

Local Open Scope string_scope.
Local Open Scope list_scope.
Local Open Scope nat_scope.

(** ** Python values used by the engine *)

Module Py.

(** One-character strings that cannot be written inside a literal. *)
Definition dquote : string := String (ascii_of_nat 34) EmptyString.
Definition newline : string := String (ascii_of_nat 10) EmptyString.

(** [sep.join(parts)] *)
Fixpoint join (sep : string) (parts : list string) : string :=
  match parts with
  | [] => EmptyString
  | [p] => p
  | p :: rest => p +:+ sep +:+ join sep rest
  end.

(** [repr] of a list (or tuple contents) of strings, as an f-string
    renders it: [['--foo', '-f']]. *)
Definition repr_str (s : string) : string := "'" +:+ s +:+ "'".
Definition repr_list (l : list string) : string :=
  "[" +:+ join ", " (map repr_str l) +:+ "]".

(** [s[:-1]] *)
Fixpoint drop_last (s : string) : string :=
  match s with
  | EmptyString => EmptyString
  | String c EmptyString => EmptyString
  | String c rest => String c (drop_last rest)
  end.

(** [s.replace(old, new)] for a non-empty [old]: every occurrence, left
    to right, without overlap. [skip] counts the characters of an
    occurrence that is being skipped. *)
Fixpoint replace_go (old new : string) (skip : nat) (s : string) : string :=
  match s with
  | EmptyString => EmptyString
  | String c rest =>
      match skip with
      | S k => replace_go old new k rest
      | O =>
          if String.prefix old s
          then new +:+ replace_go old new (String.length old - 1) rest
          else String c (replace_go old new 0 rest)
      end
  end.

Definition replace (old new s : string) : string := replace_go old new 0 s.

(** Values of keyword attributes. *)
Inductive Val :=
| VNone
| VBool (b : bool)
| VStr (s : string).

(** A keyword dictionary ([**attrs]): keys in insertion order. *)
Definition Dict := list (string * Val).

(** [d[k] = v] *)
Fixpoint dict_set (k : string) (v : Val) (d : Dict) : Dict :=
  match d with
  | [] => [(k, v)]
  | (k', v') :: rest =>
      if String.eqb k k' then (k, v) :: rest else (k', v') :: dict_set k v rest
  end.

Definition dict_keys (d : Dict) : list string := map fst d.

(** Warning categories of the [warnings] module. *)
Inductive Category := UserWarning | RuntimeWarning | DeprecationWarning.

Record Warning := { category : Category; message : string }.

(** Exceptions that the engine raises or lets through. *)
Inductive Exn :=
| TypeError (msg : string)
| KeyError
| ValueError
| IndexError
| UsageError (msg : string).

Inductive Res (A : Type) :=
| Ok (a : A)
| Raise (e : Exn).
Arguments Ok {A} a.
Arguments Raise {A} e.

End Py.
Import Py.

(** ** Data model *)

(** A function object: identity and [__name__] (when it has one). *)
Record Callback := { cb_id : nat; cb_name : option string }.

(** [OptionStackItem] *)
Record OptionStackItem := {
  param_decls : list string;
  attrs : Dict;
  param_count : nat
}.

(** Parameters recorded for a callback.  [ClickOption] is an option of the
    framework itself (a foreign option), [NotAttachedOption] the
    placeholder of this module, with its identity and the [option_decls]
    it stands for (the name it is registered under is made up from its
    identity), [GroupedOption] an option attached to the group with
    identity [group]. *)
Inductive Param :=
| ClickOption (decls : list string)
| NotAttachedOption (oid : nat) (option_decls : list string)
| GroupedOption (group : nat) (decls : list string) (oattrs : Dict).

Definition decls_of (p : Param) : list string :=
  match p with
  | ClickOption d => d
  | NotAttachedOption _ d => d
  | GroupedOption _ d _ => d
  end.

(** [isinstance(opt, _NotAttachedOption)] *)
Definition is_not_attached (p : Param) : bool :=
  match p with
  | NotAttachedOption _ _ => true
  | _ => false
  end.

Global Instance Val_eq_dec : EqDecision Val.
Proof. solve_decision. Defined.

Global Instance Param_eq_dec : EqDecision Param.
Proof. solve_decision. Defined.

(** The constraint policies of the group classes. *)
Inductive Policy :=
| NoConstraint
| RequireAny
| RequireAll
| MutuallyExclusive
| RequireMutuallyExclusive.

(** A group class as the engine sees it: its [__name__], the verdict of
    [issubclass(cls, OptionGroup)], what its constructor does with
    [cls(name, **attrs)] (the message of the [TypeError] it raises, if
    any), its policy, and what attaching an option with given
    declarations and attributes does (again the message of the
    [TypeError], if any: a foreign option type or an attribute that the
    policy forbids).  The classes themselves are defined outside this
    module. *)
Record PyClass := {
  cls_name : string;
  cls_is_option_group : bool;
  cls_init_error : option string → Dict → option string;
  cls_policy : Policy;
  cls_option_error : list string → Dict → option string
}.

(** An option attached to a group. *)
Record Member := { m_decls : list string; m_attrs : Dict }.

(** The group entity. *)
Record OptionGroup := {
  g_class : PyClass;
  g_name : string;
  g_help : string;
  g_options : list Member
}.

(** The store: the parameter lists of the functions being decorated, the
    two dictionaries of the [optgroup] object, the groups built so far
    (a group's identity is its position), the warnings emitted, and the
    next free object identity. *)
Record World := {
  click_params : gmap nat (list Param);
  decorating_state : gmap nat (list OptionStackItem);
  not_attached_options : gmap nat (list Param);
  groups : list OptionGroup;
  warned : list Warning;
  next_oid : nat
}.

Definition empty_world : World :=
  {| click_params := ∅; decorating_state := ∅; not_attached_options := ∅;
     groups := []; warned := []; next_oid := 0 |}.

Definition set_click_params (f : gmap nat (list Param) → gmap nat (list Param)) (w : World) : World :=
  {| click_params := f (click_params w); decorating_state := decorating_state w;
     not_attached_options := not_attached_options w; groups := groups w;
     warned := warned w; next_oid := next_oid w |}.

Definition set_decorating_state
    (f : gmap nat (list OptionStackItem) → gmap nat (list OptionStackItem)) (w : World) : World :=
  {| click_params := click_params w; decorating_state := f (decorating_state w);
     not_attached_options := not_attached_options w; groups := groups w;
     warned := warned w; next_oid := next_oid w |}.

Definition set_not_attached_options
    (f : gmap nat (list Param) → gmap nat (list Param)) (w : World) : World :=
  {| click_params := click_params w; decorating_state := decorating_state w;
     not_attached_options := f (not_attached_options w); groups := groups w;
     warned := warned w; next_oid := next_oid w |}.

Definition set_groups (f : list OptionGroup → list OptionGroup) (w : World) : World :=
  {| click_params := click_params w; decorating_state := decorating_state w;
     not_attached_options := not_attached_options w; groups := f (groups w);
     warned := warned w; next_oid := next_oid w |}.

Definition set_warned (f : list Warning → list Warning) (w : World) : World :=
  {| click_params := click_params w; decorating_state := decorating_state w;
     not_attached_options := not_attached_options w; groups := groups w;
     warned := f (warned w); next_oid := next_oid w |}.

Definition set_next_oid (f : nat → nat) (w : World) : World :=
  {| click_params := click_params w; decorating_state := decorating_state w;
     not_attached_options := not_attached_options w; groups := groups w;
     warned := warned w; next_oid := f (next_oid w) |}.

(** ** The store-and-exception monad *)

Definition M (A : Type) : Type := World → Res A * World.

Global Instance M_ret : MRet M := λ A a w, (Ok a, w).
Global Instance M_bind : MBind M := λ A B f m w,
  match m w with
  | (Ok a, w') => f a w'
  | (Raise e, w') => (Raise e, w')
  end.

Definition raise {A} (e : Exn) : M A := λ w, (Raise e, w).
Definition get_world : M World := λ w, (Ok w, w).
Definition modify (f : World → World) : M unit := λ w, (Ok tt, f w).

(** ** Collaborators outside [_decorators.py] *)

(** Modelled from the spec: [get_callback_and_params] of the [_helpers]
    module, which is not part of the sources at hand: "a
    callback-and-already-declared-parameters accessor usable at decoration
    time to inspect/mutate the in-progress parameter list for a command
    function".  A function that has no recorded parameters yet yields the
    empty list. *)
Definition get_callback_and_params (func : Callback) : M (Callback * list Param) :=
  λ w, (Ok (func, default [] (click_params w !! cb_id func)), w).

(** Modelled from the spec: the option declaration primitive of the
    framework, "a way to attach metadata-bearing option definitions to a
    command".  The new parameter is appended to the list recorded for the
    function, which is created when missing. *)
Definition param_memo (func : Callback) (p : Param) : M unit :=
  modify (set_click_params
            (λ m, <[cb_id func := default [] (m !! cb_id func) ++ [p]]> m)).

(** Modelled from the spec: [click.option(..decls)(func)], the option
    decorator of the framework itself; seen from the engine, a foreign
    option decorator. *)
Definition click_option (decls : list string) (func : Callback) : M Callback :=
  param_memo func (ClickOption decls) ;; mret func.

(** Modelled from the spec: the message of [raise_mixing_decorators_error]
    of the [_helpers] module, which is not part of the sources at hand:
    "Check decorator position for [<decls>] option", optionally suffixed
    "in '<command>'" when the command name is known at raise time. *)
Definition mixing_decorators_message (wrong_option : Param) (callback : Callback) : string :=
  "Check decorator position for " +:+ repr_list (decls_of wrong_option) +:+ " option"
  +:+ match cb_name callback with
      | Some n => " in '" +:+ n +:+ "'"
      | None => EmptyString
      end.

(** Modelled from the spec: [raise_mixing_decorators_error] of the
    [_helpers] module: the mis-ordering error is a construction-time
    [TypeError] with the message above. *)
Definition raise_mixing_decorators_error {A} (wrong_option : Param) (callback : Callback) : M A :=
  raise (TypeError (mixing_decorators_message wrong_option callback)).

(** Modelled from the spec: the message with which the constructor of
    [OptionGroup], of the [_core] module that is not part of the sources
    at hand, rejects a keyword: "unexpected keyword attrs surface as a
    constructor argument error"; the wording is Python's. *)
Definition unexpected_keyword_message (k : string) : string :=
  "__init__() got an unexpected keyword argument '" +:+ k +:+ "'".

(** Modelled from the spec: the constructor of [OptionGroup] takes [name]
    and the keyword [help], and rejects the first other keyword. *)
Definition OptionGroup_init_error (name : option string) (kwargs : Dict) : option string :=
  unexpected_keyword_message <$>
    head (filter (λ k, String.eqb k "help" = false) (dict_keys kwargs)).

(** Modelled from the spec: the base class [OptionGroup] of the [_core]
    module: the "no constraint" default, which forbids no option
    attribute. *)
Definition OptionGroup_class : PyClass :=
  {| cls_name := "OptionGroup";
     cls_is_option_group := true;
     cls_init_error := OptionGroup_init_error;
     cls_policy := NoConstraint;
     cls_option_error := λ _ _, None |}.

(** Modelled from the spec: the [help] of a group entity is the string
    given to the constructor, "string | empty". *)
Definition help_of (kwargs : Dict) : string :=
  match snd <$> head (filter (λ kv, String.eqb (fst kv) "help" = true) kwargs) with
  | Some (VStr h) => h
  | _ => EmptyString
  end.

(** Modelled from the spec: constructing a group entity, [cls(name,
    **attrs)] once the constructor of the [_core] module has accepted its
    arguments: the name and help given (empty when missing) and no
    options yet.  The new object is stored and its identity returned. *)
Definition new_group (cls : PyClass) (name : option string) (kwargs : Dict) : M nat :=
  w ← get_world;
  modify (set_groups (λ gs, gs ++ [{| g_class := cls; g_name := default EmptyString name;
                                      g_help := help_of kwargs; g_options := [] |}])) ;;
  mret (length (groups w)).

(** Modelled from the spec: attaching appends the option to the
    [options] of the group, whose "insertion order = declaration order". *)
Definition add_member (m : Member) (g : OptionGroup) : OptionGroup :=
  {| g_class := g_class g; g_name := g_name g; g_help := g_help g;
     g_options := g_options g ++ [m] |}.

(** Modelled from the spec: [OptionGroup.option(..declarations,
    **attrs)(func)] of the [_core] module, which is not part of the
    sources at hand: it "constructs a grouped-option immediately (no
    pending phase), validates its type and forbidden attributes against
    the policy immediately, appends it to [options], and registers it with
    the framework directly". *)
Definition OptionGroup_option (gid : nat) (decls : list string) (oattrs : Dict)
    (func : Callback) : M Callback :=
  w ← get_world;
  match groups w !! gid with
  | None => raise KeyError
  | Some g =>
      match cls_option_error (g_class g) decls oattrs with
      | Some msg => raise (TypeError msg)
      | None =>
          modify (set_groups (alter (add_member {| m_decls := decls; m_attrs := oattrs |}) gid)) ;;
          param_memo func (GroupedOption gid decls oattrs) ;;
          mret func
      end
  end.

(** ** [_OptGroup] *)

(** [self._decorating_state[callback]]: a [defaultdict(list)], so a missing
    key is bound to a new empty list. *)
Definition decorating_state_getitem (callback : Callback) : M (list OptionStackItem) :=
  λ w, match decorating_state w !! cb_id callback with
       | Some stack => (Ok stack, w)
       | None => (Ok [], set_decorating_state (<[cb_id callback := []]>) w)
       end.

(** [self._not_attached_options[callback]], likewise. *)
Definition not_attached_getitem (callback : Callback) : M (list Param) :=
  λ w, match not_attached_options w !! cb_id callback with
       | Some l => (Ok l, w)
       | None => (Ok [], set_not_attached_options (<[cb_id callback := []]>) w)
       end.

(** [d.pop(callback)] without a default: [KeyError] on a missing key. *)
Definition decorating_state_pop (callback : Callback) : M (list OptionStackItem) :=
  λ w, match decorating_state w !! cb_id callback with
       | Some stack => (Ok stack, set_decorating_state (delete (cb_id callback)) w)
       | None => (Raise KeyError, w)
       end.

Definition not_attached_pop (callback : Callback) : M (list Param) :=
  λ w, match not_attached_options w !! cb_id callback with
       | Some l => (Ok l, set_not_attached_options (delete (cb_id callback)) w)
       | None => (Raise KeyError, w)
       end.

(** [_filter_not_attached] *)
Definition filter_not_attached (options : list Param) : list Param :=
  filter (λ opt, is_not_attached opt = false) options.

(** [_check_mixing_decorators] *)
Definition check_mixing_decorators (callback : Callback)
    (options_stack : list OptionStackItem) (params : list Param) : M unit :=
  match last options_stack with
  | None => mret tt
  | Some last_state =>
      if decide (param_count last_state < length params)
      then match last params with
           | Some wrong_option => raise_mixing_decorators_error wrong_option callback
           | None => raise IndexError
           end
      else mret tt
  end.

(** [_add_not_attached_option]: the placeholder is registered with the
    framework, under a made-up name and with the declarations of the
    option as its [option_decls], then read back as the last recorded
    parameter and appended to the list of the callback's placeholders. *)
Definition add_not_attached_option (func : Callback) (decls : list string) : M unit :=
  w ← get_world;
  param_memo func (NotAttachedOption (next_oid w) decls) ;;
  modify (set_next_oid S) ;;
  '(callback, params) ← get_callback_and_params func;
  l ← not_attached_getitem callback;
  match last params with
  | Some p =>
      modify (set_not_attached_options (<[cb_id callback := l ++ [p]]>))
  | None => raise IndexError
  end.

(** [_OptGroup.option(..param_decls, **attrs)]: the decorator it returns.
    [option_stack] is the list object held by the dictionary, so appending
    to it updates the entry of the callback. *)
Definition optgroup_option (decls : list string) (oattrs : Dict) (func : Callback) : M Callback :=
  '(callback, params) ← get_callback_and_params func;
  option_stack ← decorating_state_getitem callback;
  let params := filter_not_attached params in
  check_mixing_decorators callback option_stack params ;;
  add_not_attached_option func decls ;;
  modify (set_decorating_state
            (<[cb_id callback := option_stack ++ [{| param_decls := decls; attrs := oattrs;
                                                     param_count := length params |}]]>)) ;;
  mret func.

(** [params.remove(opt)]: the first equal element is removed, [ValueError]
    when there is none. *)
Fixpoint list_remove (opt : Param) (params : list Param) : option (list Param) :=
  match params with
  | [] => None
  | p :: rest =>
      if decide (p = opt) then Some rest
      else (p ::.) <$> list_remove opt rest
  end.

(** [params] is the list object recorded for the function, so removing
    from it changes what is recorded. *)
Definition params_remove (func : Callback) (opt : Param) : M unit :=
  '(_, params) ← get_callback_and_params func;
  match list_remove opt params with
  | Some params' => modify (set_click_params (<[cb_id func := params']>))
  | None => raise ValueError
  end.

(** A [for] loop whose body may raise. *)
Fixpoint for_each {A} (body : A → M unit) (l : list A) : M unit :=
  match l with
  | [] => mret tt
  | a :: rest => body a ;; for_each body rest
  end.

(** A [for] loop that rebinds [func] in its body. *)
Fixpoint for_rebind {A} (body : A → Callback → M Callback) (l : list A)
    (func : Callback) : M Callback :=
  match l with
  | [] => mret func
  | a :: rest => func' ← body a func; for_rebind body rest func'
  end.

(** [warnings.warn(msg, category)]: non-fatal, the warning is recorded. *)
Definition warn (msg : string) (c : Category) : M unit :=
  modify (set_warned (λ ws, ws ++ [{| category := c; message := msg |}])).

(** [name] is truthy: neither [None] nor the empty string. *)
Definition with_name (name : option string) : string :=
  match name with
  | Some (String c s) => " " +:+ dquote +:+ String c s +:+ dquote
  | _ => EmptyString
  end.

(** The message of the warning for a group without pending options. *)
Definition empty_group_message (name : option string) : string :=
  "The empty option group" +:+ with_name name
  +:+ " was found. The group will not be added.".

(** The value stored by [attrs['help'] = help]. *)
Definition help_val (help : option string) : Val :=
  match help with
  | Some h => VStr h
  | None => VNone
  end.

(** [cls(name, **attrs)] inside [try ... except TypeError]. *)
Definition construct_group (cls : PyClass) (name : option string) (kwargs : Dict) : M nat :=
  match cls_init_error cls name kwargs with
  | Some err =>
      raise (TypeError (replace "__init__()" ("'" +:+ cls_name cls +:+ "' constructor") err))
  | None => new_group cls name kwargs
  end.

(** The decorator returned by [_OptGroup.group], once [cls] is settled.
    The parameters are read again after the removals, which act on the
    list object recorded for the function. *)
Definition group_decorator (name : option string) (cls : PyClass) (help : option string)
    (kwargs : Dict) (func : Callback) : M Callback :=
  '(callback, _) ← get_callback_and_params func;
  w ← get_world;
  if decide (cb_id callback ∉ dom (decorating_state w))
  then
    warn (empty_group_message name) UserWarning ;;
    mret func
  else
    option_stack ← decorating_state_pop callback;
    nas ← not_attached_pop callback;
    for_each (params_remove func) nas ;;
    '(_, params) ← get_callback_and_params func;
    check_mixing_decorators callback option_stack (filter_not_attached params) ;;
    let kwargs := dict_set "help" (help_val help) kwargs in
    option_group ← construct_group cls name kwargs;
    for_rebind (λ item, OptionGroup_option option_group (param_decls item) (attrs item))
               option_stack func.

(** [_OptGroup.group(name, *, cls, help, **attrs)]: [cls] is [None] when
    it is not given (a class object is truthy). *)
Definition optgroup_group (name : option string) (cls : option PyClass)
    (help : option string) (kwargs : Dict) : Res (Callback → M Callback) :=
  match cls with
  | None => Ok (group_decorator name OptionGroup_class help kwargs)
  | Some c =>
      if cls_is_option_group c
      then Ok (group_decorator name c help kwargs)
      else Raise (TypeError "'cls' must be a subclass of 'OptionGroup' class.")
  end.

(** [_OptGroup.__call__(name, help, cls, **attrs)] *)
Definition optgroup_call (name : option string) (help : option string)
    (cls : option PyClass) (kwargs : Dict) : Res (Callback → M Callback) :=
  optgroup_group name cls help kwargs.

(** ** Decorating a function *)

(** Decorators in the order in which they fire. *)
Definition fire (ds : list (Callback → M Callback)) (func : Callback) : M Callback :=
  for_rebind (λ d f, d f) ds func.

(** A decorator list as it is written above a function, top to bottom:
    the decorator nearest the function fires first. *)
Definition decorate (visible : list (Callback → M Callback)) (func : Callback) : M Callback :=
  fire (reverse visible) func.

(** The parameters recorded for a function. *)
Definition params_of (w : World) (func : Callback) : list Param :=
  default [] (click_params w !! cb_id func).

(** The pending stack of a callback, empty when it has none. *)
Definition stack_of (w : World) (func : Callback) : list OptionStackItem :=
  default [] (decorating_state w !! cb_id func).

(** The placeholders listed for a callback. *)
Definition placeholders_of (w : World) (func : Callback) : list Param :=
  default [] (not_attached_options w !! cb_id func).

(** ** Helpers of the correctness statements *)

(** The parameters left once every placeholder of [nas] has been removed. *)
Fixpoint remove_all (nas params : list Param) : option (list Param) :=
  match nas with
  | [] => Some params
  | opt :: rest => list_remove opt params ≫= remove_all rest
  end.

(** The store once the group decorator has popped the bookkeeping of a
    callback and removed its placeholders. *)
Definition drained (w : World) (func : Callback) (nas params' : list Param) : World :=
  let w0 := set_not_attached_options (delete (cb_id func))
              (set_decorating_state (delete (cb_id func)) w) in
  match nas with
  | [] => w0
  | _ => set_click_params (<[cb_id func := params']>) w0
  end.

Definition member_of (item : OptionStackItem) : Member :=
  {| m_decls := param_decls item; m_attrs := attrs item |}.

Definition grouped_of (gid : nat) (item : OptionStackItem) : Param :=
  GroupedOption gid (param_decls item) (attrs item).

Definition add_members (ms : list Member) (g : OptionGroup) : OptionGroup :=
  {| g_class := g_class g; g_name := g_name g; g_help := g_help g;
     g_options := g_options g ++ ms |}.

(** The bookkeeping of a callback is consistent when the placeholders
    listed for it are placeholders, each recorded among its parameters. *)
Definition placeholders_recorded (w : World) (func : Callback) : Prop :=
  ∃ nas, not_attached_options w !! cb_id func = Some nas ∧
         Forall (λ p, is_not_attached p = true) nas ∧
         nas ⊆+ params_of w func.

(** A grouped-option declaration as written in a decorator list. *)
Definition Decl : Type := list string * Dict.

Definition option_decorator (d : Decl) : Callback → M Callback :=
  optgroup_option (fst d) (snd d).

(** The placeholders that a run of grouped-option decorators leaves, in
    firing order, from object identity [k] on. *)
Fixpoint markers (k : nat) (ds : list Decl) : list Param :=
  match ds with
  | [] => []
  | d :: rest => NotAttachedOption k (fst d) :: markers (S k) rest
  end.

(** The stack entry of a declaration when [n] parameters were counted. *)
Definition item_of (n : nat) (d : Decl) : OptionStackItem :=
  {| param_decls := fst d; attrs := snd d; param_count := n |}.

(** ** [_NotAttachedOption] and the framework around it *)

(** A command: its name, its callback and its parameters. *)
Record Command := {
  cmd_name : string;
  cmd_callback : Callback;
  cmd_params : list Param
}.

(** [ctx]: the context of one invocation. *)
Record Context := { command : Command }.

(** Resolved values, by destination name; a name that is not bound is
    absent. *)
Definition Values : Type := gmap string Val.

Section Framework.

(** Two functions of the framework: the rendering of the declaration
    strings of an option in error messages
    ([click.Option(decls).get_error_hint(ctx)]), and the destination name
    it derives from the declaration strings. *)
Variable get_error_hint : list string → string.
Variable dest_name : list string → string.

(** [get_fake_option_name()] of the [_helpers] module, which is not part
    of the sources at hand: the made-up name under which
    [_add_not_attached_option] registers the placeholder with a given
    identity. *)
Variable fake_option_name : nat → string.

(** The parser of the framework, as its [Command.parse_args] runs it
    before any hook: from the declaration strings under which the
    parameters of the command are registered and the arguments of the
    invocation, the values by destination name and the arguments left
    over, or the usage error with which it rejects the arguments.  The
    second function is the message of the usage error of the framework
    for arguments that are left over once the hooks have run. *)
Variable parse_args : list (list string) → list string → Res (Values * list string).
Variable extra_arguments_message : list string → string.

(** The loop of [_raise_error] over the reversed list. *)
Definition hint_loop (options : list Param) : string :=
  fold_left (λ acc option, acc +:+ "  " +:+ get_error_hint (decls_of option) +:+ newline)
            options EmptyString.

(** The message of the [TypeError] of [_raise_error]. *)
Definition missing_group_message (name hint : string) : string :=
  "Missing option group decorator in '" +:+ name
  +:+ "' command for the following grouped options:" +:+ newline
  +:+ hint +:+ newline.

(** [_NotAttachedOption._raise_error] *)
Definition raise_error {A} (ctx : Context) : M A :=
  options ← not_attached_getitem (cmd_callback (command ctx));
  let options_error_hint := hint_loop (reverse options) in
  let options_error_hint := drop_last options_error_hint in
  raise (TypeError (missing_group_message (cmd_name (command ctx)) options_error_hint)).

(** One line of the listing in that message. *)
Definition hint_line (decls : list string) : string :=
  "  " +:+ get_error_hint decls.

(** ** Constraint policies *)

(** Modelled from the spec: the policies of the [_core] module, which is
    not part of the sources at hand, are "pure logic over (group,
    resolved_values: mapping from option destination-name to
    value-or-absent)"; an option is present when its destination name has
    a value. *)
Definition present (values : Values) (m : Member) : bool :=
  bool_decide (is_Some (values !! dest_name (m_decls m))).

(** Modelled from the spec: the member options of a group "in
    declaration order".  The options of a group are stored as they were
    attached, the one nearest the function first; read top to bottom, the
    declarations are that list reversed: in [test_default_group_name],
    [--foo] above [--bar] is attached after [--bar] and the group is
    rendered [(foo|bar)]. *)
Definition declared_options (g : OptionGroup) : list Member :=
  reverse (g_options g).

(** Modelled from the spec: the member options that have a value, in
    declaration order. *)
Definition present_options (values : Values) (g : OptionGroup) : list Member :=
  filter (λ m, present values m = true) (declared_options g).

(** Modelled from the spec: the member options without a value, in
    declaration order. *)
Definition missing_options (values : Values) (g : OptionGroup) : list Member :=
  filter (λ m, present values m = false) (declared_options g).

(** Modelled from the spec: the default-name rule of the [_core] module,
    "( + |-joined destination names of its member options in declaration
    order + )" for a group without a name. *)
Definition group_display_name (g : OptionGroup) : string :=
  match g_name g with
  | EmptyString =>
      "(" +:+ join "|" (map (λ m, dest_name (m_decls m)) (declared_options g)) +:+ ")"
  | n => n
  end.

(** Modelled from the spec: the rendered message of a usage error, a
    headline and one line per listed option with its declaration
    strings. *)
Definition usage_message (headline : string) (listed : list Member) : string :=
  headline +:+ ":" +:+ newline
  +:+ join newline (map (λ m, "  " +:+ get_error_hint (m_decls m)) listed).

(** Modelled from the spec: "Missing required options from ..." naming
    the group. *)
Definition missing_required_headline (g : OptionGroup) : string :=
  "Missing required options from " +:+ group_display_name g.

(** Modelled from the spec: the message of the mutually-exclusive
    failure. *)
Definition mutually_exclusive_headline : string :=
  "The given mutually exclusive options cannot be used at the same time".

(** Modelled from the spec: the mutually-exclusive policy of the [_core]
    module, which "passes iff at most one member option has a present
    value" and otherwise lists "exactly the present ones". *)
Definition validate_mutually_exclusive (g : OptionGroup) (values : Values) : Res unit :=
  if decide (length (present_options values g) ≤ 1)
  then Ok tt
  else Raise (UsageError (usage_message mutually_exclusive_headline (present_options values g))).

(** Modelled from the spec: the validation entry point of a group of the
    [_core] module, by policy (section 4.1): no constraint always passes;
    require-any fails when no member is present; require-all lists the
    missing members; required-mutually-exclusive composes the
    mutually-exclusive check with the requirement of one member.  Every
    listing is in declaration order. *)
Definition validate (g : OptionGroup) (values : Values) : Res unit :=
  match cls_policy (g_class g) with
  | NoConstraint => Ok tt
  | RequireAny =>
      match present_options values g with
      | [] => Raise (UsageError
                       ("Missing one of the required options: "
                        +:+ join " or " (map (λ m, get_error_hint (m_decls m))
                                             (declared_options g))))
      | _ => Ok tt
      end
  | RequireAll =>
      match missing_options values g with
      | [] => Ok tt
      | missing => Raise (UsageError (usage_message (missing_required_headline g) missing))
      end
  | MutuallyExclusive => validate_mutually_exclusive g values
  | RequireMutuallyExclusive =>
      match validate_mutually_exclusive g values with
      | Raise e => Raise e
      | Ok _ =>
          match present_options values g with
          | [] => Raise (UsageError
                           (usage_message "Missing one of the required mutually exclusive options"
                                          (declared_options g)))
          | _ => Ok tt
          end
      end
  end.

(** Modelled from the spec: the framework boundary turns a usage error
    into "a process exit with status 2"; a run without error exits with
    status 0, and any other exception escapes (status 1). *)
Definition exit_status (r : Res unit) : nat :=
  match r with
  | Ok _ => 0
  | Raise (UsageError _) => 2
  | Raise _ => 1
  end.

(** ** The hooks of the parameters and the passes of the framework *)

(** Modelled from the spec: [handle_parse_result] of a grouped option of
    the [_core] module, which is not part of the sources at hand: the
    "post-parse validation hook invoked with the map of resolved option
    values", in which the option runs the validation of the group it was
    attached to. *)
Definition GroupedOption_handle_parse_result (gid : nat) (opts : Values) : M unit :=
  λ w, match groups w !! gid with
       | Some g => (validate g opts, w)
       | None => (Ok tt, w)
       end.

(** [handle_parse_result], as the framework dispatches it on the
    parameters of a command, with the values that the parser resolved.
    The placeholder overrides it to raise; a grouped option has the hook
    of its class; a foreign option declared by its declaration strings
    alone keeps the hook of the framework, which takes its value and
    raises nothing. *)
Definition handle_parse_result (p : Param) (ctx : Context) (opts : Values)
    (args : list string) : M unit :=
  match p with
  | NotAttachedOption _ _ => raise_error ctx
  | GroupedOption gid _ _ => GroupedOption_handle_parse_result gid opts
  | ClickOption _ => mret tt
  end.

(** [get_help_record], likewise: the placeholder overrides it to raise,
    the other parameters render their help record. *)
Definition get_help_record (p : Param) (ctx : Context) : M unit :=
  match p with
  | NotAttachedOption _ _ => raise_error ctx
  | _ => mret tt
  end.

(** The declaration strings under which a parameter is registered with
    the framework, the ones its parser knows.  A foreign option and a
    grouped option are registered under their own; the placeholder is
    registered under [get_fake_option_name()], and the declaration
    strings given to [optgroup.option] are only kept in its
    [option_decls] ([_add_not_attached_option]). *)
Definition registered_decls (p : Param) : list string :=
  match p with
  | ClickOption decls => decls
  | NotAttachedOption oid _ => [fake_option_name oid]
  | GroupedOption _ decls _ => decls
  end.

(** Modelled from the spec: the pass of the framework over the parameters
    of a command that is invoked, "after all option values are resolved
    but before the command body runs": the parser reads the arguments
    against the registered declaration strings, and arguments that it
    rejects reach no hook; then [handle_parse_result] is called on each
    parameter with the resolved values; then arguments that are left
    over are a usage error. *)
Definition resolve_parameters (cmd : Command) (args : list string) : M unit :=
  match parse_args (registered_decls <$> cmd_params cmd) args with
  | Raise e => raise e
  | Ok (opts, rest) =>
      for_each (λ p, handle_parse_result p {| command := cmd |} opts rest) (cmd_params cmd) ;;
      match rest with
      | [] => mret tt
      | _ => raise (UsageError (extra_arguments_message rest))
      end
  end.

(** Modelled from the spec: the pass of the framework over the parameters
    of a command whose help is requested, which calls [get_help_record]
    on each. *)
Definition format_help (cmd : Command) : M unit :=
  for_each (λ p, get_help_record p {| command := cmd |}) (cmd_params cmd).

(** A session: the command is exercised several times in a row, each time
    for its help or invoked with some arguments. *)
Inductive Request :=
| Help
| Invoke (args : list string).

Definition exercise (cmd : Command) (r : Request) : M unit :=
  match r with
  | Help => format_help cmd
  | Invoke args => resolve_parameters cmd args
  end.

Fixpoint session (cmd : Command) (rs : list Request) (w : World) : list (Res unit) * World :=
  match rs with
  | [] => ([], w)
  | r :: rest =>
      let '(out, w') := exercise cmd r w in
      let '(outs, w'') := session cmd rest w' in
      (out :: outs, w'')
  end.

End Framework.

(** ** Concrete decorator lists, after the test suite *)

Definition cli : Callback := {| cb_id := 1; cb_name := Some "cli" |}.

(** [@optgroup.option('--bar')] below [@click.option('--hello')]. *)
Definition mixed_world : World :=
  snd (decorate [click_option ["--hello"]; optgroup_option ["--bar"] []] cli empty_world).

(** [@click.option('--hello2')] alone. *)
Definition hello2_world : World :=
  snd (decorate [click_option ["--hello2"]] cli empty_world).

(** [@optgroup.option('--foo')] above [@optgroup.option('--bar')]. *)
Definition foo_bar : list Decl := [(["--foo"], []); (["--bar"], [])].

(** [object]: a class that is not a group class. *)
Definition object_class : PyClass :=
  {| cls_name := "object";
     cls_is_option_group := false;
     cls_init_error := λ _ _, None;
     cls_policy := NoConstraint;
     cls_option_error := λ _ _, None |}.

(** [@optgroup.option('--foo')] alone. *)
Definition foo_world : World :=
  snd (decorate [optgroup_option ["--foo"] []] cli empty_world).

(** Renderings used in the examples: the declaration strings in double
    quotes, joined by [" / "], and the first declaration string without
    its leading dashes as the destination name. *)
Definition quoted_hint (decls : list string) : string :=
  join " / " (map (λ d, dquote +:+ d +:+ dquote) decls).

Fixpoint strip_dashes (s : string) : string :=
  match s with
  | String c rest => if Ascii.eqb c "-" then strip_dashes rest else s
  | EmptyString => EmptyString
  end.

Definition first_dest (decls : list string) : string :=
  strip_dashes (default EmptyString (head decls)).

(** A class of groups with the given policy, and the decorator lists of
    the policy tests: [@optgroup(cls=c)] above one [@optgroup.option(d)]
    for each declaration, top to bottom. *)
Definition policy_class (n : string) (p : Policy) : PyClass :=
  {| cls_name := n;
     cls_is_option_group := true;
     cls_init_error := OptionGroup_init_error;
     cls_policy := p;
     cls_option_error := λ _ _, None |}.

Definition policy_world (c : PyClass) (decls : list string) : World :=
  snd (decorate (group_decorator None c None []
                 :: (option_decorator <$> ((λ d, ([d], [])) <$> decls)))
                cli empty_world).

(** The nameless group that such a list builds: its options are stored
    as they were attached, the lowest declaration first. *)
Definition group_of (c : PyClass) (decls : list string) : OptionGroup :=
  {| g_class := c; g_name := EmptyString; g_help := EmptyString;
     g_options := (λ d, {| m_decls := [d]; m_attrs := [] |}) <$> reverse decls |}.

Definition required_all_class : PyClass :=
  policy_class "RequiredAllOptionGroup" RequireAll.

Definition mutually_exclusive_class : PyClass :=
  policy_class "MutuallyExclusiveOptionGroup" MutuallyExclusive.

Definition required_mutually_exclusive_class : PyClass :=
  policy_class "RequiredMutuallyExclusiveOptionGroup" RequireMutuallyExclusive.

Definition required_all_group : OptionGroup :=
  group_of required_all_class ["--foo"; "--bar"].

Definition mutually_exclusive_group : OptionGroup :=
  group_of mutually_exclusive_class ["--foo"; "--bar"; "--spam"].

Definition required_mutually_exclusive_group : OptionGroup :=
  group_of required_mutually_exclusive_class ["--foo"; "--bar"; "--spam"].

Definition only_foo : Values := {[ "foo" := VStr "foo" ]}.
Definition foo_and_spam : Values := <[ "spam" := VStr "spam" ]> only_foo.

(** The command of [test_missing_group_decl_first_api]:
    [@click.option('--hello1')] above [@optgroup.option('--foo')] and
    [@optgroup.option('--bar')], above [@click.option('--hello2')], and no
    group decorator.  The command holds the recorded parameters, the
    topmost declaration first. *)
Definition missing_group_world : World :=
  snd (decorate ((click_option <$> [["--hello1"]]) ++ (option_decorator <$> foo_bar)
                 ++ (click_option <$> [["--hello2"]]))
                cli empty_world).

Definition missing_group_cli : Command :=
  {| cmd_name := "cli"; cmd_callback := cli;
     cmd_params := reverse (params_of missing_group_world cli) |}.

(** Stand-ins for the framework in the examples.  The made-up name of a
    placeholder: a prefix and some letters, one more for each identity. *)
Fixpoint fake_letters (n : nat) : string :=
  match n with
  | 0 => "x"
  | S n' => String "x" (fake_letters n')
  end.

Definition example_fake_name (oid : nat) : string :=
  "--fake-" +:+ fake_letters oid.

(** A parser for arguments as the tests write them, long options with
    one value each.  An argument that starts with a dash has to be a
    declaration string of a registered parameter, or there is no such
    option; it takes the next argument as its value, bound to the
    destination name.  Any other argument is left over. *)
Fixpoint long_option_parser (names : list (list string)) (args : list string)
    : Res (Values * list string) :=
  match args with
  | [] => Ok (∅, [])
  | arg :: rest =>
      if String.prefix "-" arg
      then
        match filter (λ decls, arg ∈ decls) names with
        | [] => Raise (UsageError ("No such option: " +:+ arg))
        | decls :: _ =>
            match rest with
            | [] => Raise (UsageError ("Option " +:+ arg +:+ " requires an argument."))
            | value :: rest' =>
                match long_option_parser names rest' with
                | Ok (opts, extra) => Ok (<[first_dest decls := VStr value]> opts, extra)
                | Raise e => Raise e
                end
            end
        end
      else
        match long_option_parser names rest with
        | Ok (opts, extra) => Ok (opts, arg :: extra)
        | Raise e => Raise e
        end
  end.

Definition example_extra_message (rest : list string) : string :=
  "Got unexpected extra arguments (" +:+ join " " rest +:+ ")".

Definition foo_and_bar : Values := <[ "bar" := VStr "bar" ]> only_foo.

(** The command of [test_required_all_option_group]. *)
Definition required_all_cli : Command :=
  {| cmd_name := "cli"; cmd_callback := cli;
     cmd_params := reverse (params_of (policy_world required_all_class ["--foo"; "--bar"]) cli) |}.

(** ** The states of the engine *)

(** The stores that decorating can produce: from the empty store, by the
    foreign option decorator, the two decorators of [optgroup], and the
    construction of a group and the attaching of an option by hand (the
    imperative interface), whether they return or raise. *)
Inductive reachable : World → Prop :=
| reach_empty : reachable empty_world
| reach_click_option w decls func :
    reachable w → reachable (snd (click_option decls func w))
| reach_optgroup_option w decls oattrs func :
    reachable w → reachable (snd (optgroup_option decls oattrs func w))
| reach_group_decorator w name cls help kwargs func :
    reachable w → reachable (snd (group_decorator name cls help kwargs func w))
| reach_construct_group w cls name kwargs :
    reachable w → reachable (snd (construct_group cls name kwargs w))
| reach_OptionGroup_option w gid decls oattrs func :
    reachable w → reachable (snd (OptionGroup_option gid decls oattrs func w)).

(** The two dictionaries of [optgroup] have the same keys; a pending stack
    is never empty, and the placeholders listed for a callback are
    placeholders, each recorded among its parameters. *)
Definition consistent (w : World) : Prop :=
  ∀ id,
    match decorating_state w !! id, not_attached_options w !! id with
    | Some stack, Some nas =>
        stack ≠ [] ∧ Forall (λ p, is_not_attached p = true) nas ∧
        nas ⊆+ default [] (click_params w !! id)
    | None, None => True
    | _, _ => False
    end.

(** A computation that leaves the two dictionaries alone and changes the
    parameters of no function but [id]. *)
Definition untouched (id : nat) (w w' : World) : Prop :=
  decorating_state w' = decorating_state w ∧
  not_attached_options w' = not_attached_options w ∧
  ∀ id', id' ≠ id → click_params w' !! id' = click_params w !! id'.

Definition frames {A} (id : nat) (m : M A) : Prop :=
  ∀ w, untouched id w (snd (m w)).

(** ** Notions for further properties of the engine *)

(** The placeholders among some parameters, in order. *)
Definition placeholders_among (params : list Param) : list Param :=
  filter (λ p, is_not_attached p = true) params.

(** The two dictionaries of [optgroup] and the parameters of the functions
    move in step: the placeholders among the parameters recorded for a
    function are those listed for it, in the same order; they stand for
    the declarations of its pending stack, entry by entry; and the
    entries of a stack all hold one count, which the number of recorded
    parameters that are not placeholders has reached. *)
Definition in_step (w : World) : Prop :=
  ∀ id,
    let params := default [] (click_params w !! id) in
    let stack := default [] (decorating_state w !! id) in
    let nas := default [] (not_attached_options w !! id) in
    placeholders_among params = nas ∧
    decls_of <$> nas = param_decls <$> stack ∧
    ∃ c, c ≤ length (filter_not_attached params) ∧
         Forall (λ item, param_count item = c) stack.

(** A computation that keeps the placeholders among the parameters of
    [func]. *)
Definition keeps_placeholders {A} (func : Callback) (m : M A) : Prop :=
  ∀ w, placeholders_among (params_of (snd (m w)) func) = placeholders_among (params_of w func).

(** A command that holds exactly the parameters recorded for a function,
    in some order. *)
Definition command_from (w : World) (func : Callback) (cmd : Command) : Prop :=
  cmd_callback cmd = func ∧ cmd_params cmd ≡ₚ params_of w func.

(** The imperative interface: a group is constructed, then its options
    are declared as decorators of the group, top to bottom. *)
Definition imperative (cls : PyClass) (name : option string) (kwargs : Dict)
    (visible : list Decl) (func : Callback) : M Callback :=
  gid ← construct_group cls name kwargs;
  decorate ((λ d, OptionGroup_option gid (fst d) (snd d)) <$> visible) func.

(** [@optgroup()] above [@optgroup.option('--foo')] and
    [@optgroup.option('--bar')]: the second command of
    [test_default_group_name]. *)
Definition grouped_world : World :=
  snd (decorate (group_decorator None OptionGroup_class None [] :: (option_decorator <$> foo_bar))
                cli empty_world).

(** What the engine holds for one function is the same in two stores:
    the entries of its callback in the two dictionaries, missing or not,
    and the parameters recorded for it. *)
Definition same_for (other : Callback) (w w' : World) : Prop :=
  decorating_state w' !! cb_id other = decorating_state w !! cb_id other ∧
  not_attached_options w' !! cb_id other = not_attached_options w !! cb_id other ∧
  click_params w' !! cb_id other = click_params w !! cb_id other.

(** A second function, as the subcommand of [test_subcommand_first_api]. *)
Definition subcommand : Callback := {| cb_id := 2; cb_name := Some "command" |}.

(** One group as the docstring of [_OptGroup] writes it: foreign options,
    then the group decorator, then its grouped options, top to bottom. *)
Record Block := {
  b_above : list (list string);
  b_name : option string;
  b_cls : PyClass;
  b_help : option string;
  b_kwargs : Dict;
  b_options : list Decl
}.

Definition block_decorators (b : Block) : list (Callback → M Callback) :=
  (click_option <$> b_above b)
  ++ group_decorator (b_name b) (b_cls b) (b_help b) (b_kwargs b)
     :: (option_decorator <$> b_options b).

(** The decorators of a block in the order in which they fire. *)
Definition fired_block (b : Block) : list (Callback → M Callback) :=
  (option_decorator <$> reverse (b_options b))
  ++ group_decorator (b_name b) (b_cls b) (b_help b) (b_kwargs b)
     :: (click_option <$> reverse (b_above b)).

(** A block with at least one grouped option, whose class accepts the
    arguments of the group and the attributes of its options. *)
Definition block_ok (b : Block) : Prop :=
  b_options b ≠ [] ∧
  cls_init_error (b_cls b) (b_name b) (dict_set "help" (help_val (b_help b)) (b_kwargs b))
    = None ∧
  Forall (λ d, cls_option_error (b_cls b) (fst d) (snd d) = None) (b_options b).

(** The group that a block declares, its options in firing order. *)
Definition group_of_block (b : Block) : OptionGroup :=
  {| g_class := b_cls b;
     g_name := default EmptyString (b_name b);
     g_help := help_of (dict_set "help" (help_val (b_help b)) (b_kwargs b));
     g_options := (λ d, {| m_decls := fst d; m_attrs := snd d |}) <$> reverse (b_options b) |}.

(** The parameters that blocks record, in firing order, when the first of
    their groups gets identity [gid]. *)
Fixpoint fired_params (gid : nat) (fired : list Block) : list Param :=
  match fired with
  | [] => []
  | b :: rest =>
      ((λ d, GroupedOption gid (fst d) (snd d)) <$> reverse (b_options b))
      ++ (ClickOption <$> reverse (b_above b))
      ++ fired_params (S gid) rest
  end.

(** The decorators of the docstring of [_OptGroup]: two groups, the
    first with [--foo] and [--bar], the second with [--spam]. *)
Definition docstring_blocks : list Block :=
  [ {| b_above := []; b_name := Some "Group 1"; b_cls := OptionGroup_class;
       b_help := Some "option group 1"; b_kwargs := [];
       b_options := [(["--foo"], []); (["--bar"], [])] |};
    {| b_above := []; b_name := Some "Group 2"; b_cls := OptionGroup_class;
       b_help := Some "option group 2"; b_kwargs := [];
       b_options := [(["--spam"], [])] |} ].

(** A parameter that is attached to a group. *)
Definition is_grouped (p : Param) : bool :=
  match p with
  | GroupedOption _ _ _ => true
  | _ => false
  end.

(** * Correctness *)

(** ** Strings *)

Lemma string_app_nil_r (s : string) : s +:+ EmptyString = s.
Proof. induction s as [|c s IH]; [done|]. change (String c (s +:+ EmptyString) = String c s). by rewrite IH. Qed.

Lemma string_app_assoc (s t u : string) : (s +:+ t) +:+ u = s +:+ (t +:+ u).
Proof.
  induction s as [|c s IH]; [done|].
  change (String c ((s +:+ t) +:+ u) = String c (s +:+ (t +:+ u))). by rewrite IH.
Qed.

Lemma drop_last_app (s t : string) :
  t ≠ EmptyString → drop_last (s +:+ t) = s +:+ drop_last t.
Proof.
  intros Hne. induction s as [|c s IH]; [done|].
  change (drop_last (String c (s +:+ t)) = String c (s +:+ drop_last t)).
  rewrite <- IH. simpl. destruct (s +:+ t) eqn:Happ; [|done].
  destruct s; [|discriminate]. by destruct t.
Qed.

Lemma drop_last_newline (s : string) : drop_last (s +:+ newline) = s.
Proof. rewrite drop_last_app by discriminate. apply string_app_nil_r. Qed.

Lemma replace_init_prefix (new rest : string) :
  replace "__init__()" new ("__init__()" +:+ rest) = new +:+ replace "__init__()" new rest.
Proof. destruct rest; reflexivity. Qed.

(** ** The monad and the bookkeeping operations *)

Ltac unfold_M :=
  unfold mbind, M_bind, mret, M_ret, raise, modify, get_world in *.

Lemma add_not_attached_option_spec (w : World) (func : Callback) (decls : list string) :
  add_not_attached_option func decls w =
    (Ok tt,
     {| click_params :=
          <[cb_id func := params_of w func ++ [NotAttachedOption (next_oid w) decls]]>
            (click_params w);
        decorating_state := decorating_state w;
        not_attached_options :=
          <[cb_id func := placeholders_of w func ++ [NotAttachedOption (next_oid w) decls]]>
            (not_attached_options w);
        groups := groups w; warned := warned w; next_oid := S (next_oid w) |}).
Proof.
  unfold add_not_attached_option, param_memo, get_callback_and_params,
    not_attached_getitem, params_of, placeholders_of.
  unfold_M. simpl. rewrite lookup_insert_eq. simpl. rewrite last_snoc.
  destruct (not_attached_options w !! cb_id func) as [l|] eqn:Hl; simpl.
  - reflexivity.
  - unfold set_not_attached_options; simpl. by rewrite insert_insert_eq.
Qed.

Lemma optgroup_option_ok (w : World) (func : Callback) (decls : list string) (oattrs : Dict) :
  (∀ item, last (stack_of w func) = Some item →
           length (filter_not_attached (params_of w func)) ≤ param_count item) →
  optgroup_option decls oattrs func w =
    (Ok func,
     {| click_params :=
          <[cb_id func := params_of w func ++ [NotAttachedOption (next_oid w) decls]]>
            (click_params w);
        decorating_state :=
          <[cb_id func := stack_of w func ++
              [{| param_decls := decls; attrs := oattrs;
                  param_count := length (filter_not_attached (params_of w func)) |}]]>
            (decorating_state w);
        not_attached_options :=
          <[cb_id func := placeholders_of w func ++ [NotAttachedOption (next_oid w) decls]]>
            (not_attached_options w);
        groups := groups w; warned := warned w; next_oid := S (next_oid w) |}).
Proof.
  intros Hle. unfold optgroup_option, decorating_state_getitem, get_callback_and_params.
  unfold stack_of in *. fold (params_of w func).
  unfold mbind at 1 2. unfold M_bind at 1 2.
  destruct (decorating_state w !! cb_id func) as [stack|] eqn:Hst; simpl in *.
  - unfold check_mixing_decorators.
    destruct (last stack) as [item|] eqn:Hlast.
    + specialize (Hle item eq_refl). case_decide; [unfold params_of in *; lia|].
      unfold_M. rewrite add_not_attached_option_spec. reflexivity.
    + unfold_M. rewrite add_not_attached_option_spec. reflexivity.
  - unfold_M. simpl. rewrite add_not_attached_option_spec. simpl.
    unfold set_decorating_state, params_of, placeholders_of; simpl.
    by rewrite insert_insert_eq.
Qed.

Lemma optgroup_option_mixing (w : World) (func : Callback) (decls : list string) (oattrs : Dict)
    (item : OptionStackItem) :
  last (stack_of w func) = Some item →
  param_count item < length (filter_not_attached (params_of w func)) →
  ∃ wrong_option,
    last (filter_not_attached (params_of w func)) = Some wrong_option ∧
    optgroup_option decls oattrs func w =
      (Raise (TypeError (mixing_decorators_message wrong_option func)), w).
Proof.
  intros Hlast Hlt.
  destruct (last (filter_not_attached (params_of w func))) as [p|] eqn:Hp.
  2:{ apply last_None in Hp. rewrite Hp in Hlt. simpl in Hlt. lia. }
  exists p. split; [done|].
  unfold optgroup_option, decorating_state_getitem, get_callback_and_params.
  unfold stack_of in *. fold (params_of w func).
  unfold mbind at 1 2. unfold M_bind at 1 2.
  destruct (decorating_state w !! cb_id func) as [stack|] eqn:Hst; simpl in *; [|done].
  unfold check_mixing_decorators. rewrite Hlast.
  case_decide; [|unfold params_of in *; lia].
  unfold params_of in Hp. rewrite Hp. reflexivity.
Qed.

Lemma group_decorator_empty (w : World) (func : Callback) (name help : option string)
    (cls : PyClass) (kwargs : Dict) :
  decorating_state w !! cb_id func = None →
  group_decorator name cls help kwargs func w =
    (Ok func,
     set_warned (λ ws, ws ++ [{| category := UserWarning;
                                 message := empty_group_message name |}]) w).
Proof.
  intros Hnone. unfold group_decorator, get_callback_and_params, warn. unfold_M.
  case_decide as Hdom; [done|].
  apply not_elem_of_dom in Hnone. contradiction.
Qed.

Lemma params_remove_spec (opt : Param) (w : World) (func : Callback) :
  params_remove func opt w =
    match list_remove opt (params_of w func) with
    | Some params' => (Ok tt, set_click_params (<[cb_id func := params']>) w)
    | None => (Raise ValueError, w)
    end.
Proof.
  unfold params_remove, get_callback_and_params, params_of. unfold_M.
  by destruct (list_remove _ _).
Qed.

Lemma for_each_params_remove (nas params' : list Param) (w : World) (func : Callback) :
  remove_all nas (params_of w func) = Some params' →
  for_each (params_remove func) nas w =
    (Ok tt, match nas with
            | [] => w
            | _ => set_click_params (<[cb_id func := params']>) w
            end).
Proof.
  revert w. induction nas as [|opt rest IH]; intros w Hall; [done|].
  simpl in *. unfold mbind, M_bind. rewrite params_remove_spec.
  destruct (list_remove opt (params_of w func)) as [ps|] eqn:Hrm; simplify_eq/=.
  rewrite IH.
  - destruct rest; [simpl in *; congruence|].
    unfold set_click_params; simpl. by rewrite insert_insert_eq.
  - unfold params_of; simpl. by rewrite lookup_insert_eq.
Qed.

Lemma list_remove_filter (opt : Param) (params params' : list Param) :
  is_not_attached opt = true →
  list_remove opt params = Some params' →
  filter_not_attached params' = filter_not_attached params.
Proof.
  intros Hopt. revert params'. induction params as [|p rest IH]; intros params' Hrm; [done|].
  simpl in Hrm. case_decide as Heq.
  - simplify_eq. unfold filter_not_attached. by rewrite filter_cons_False by congruence.
  - destruct (list_remove opt rest) as [r|] eqn:Hr; simplify_eq/=.
    unfold filter_not_attached in *. rewrite !filter_cons. by rewrite (IH r).
Qed.

Lemma list_remove_elem_of (opt : Param) (params : list Param) :
  opt ∈ params → ∃ params', list_remove opt params = Some params' ∧ params ≡ₚ opt :: params'.
Proof.
  induction params as [|p rest IH]; intros Hin; [by apply elem_of_nil in Hin|].
  simpl. case_decide as Heq.
  - subst. eauto.
  - apply elem_of_cons in Hin as [->|Hin]; [done|].
    destruct (IH Hin) as (r & -> & Hperm). eexists; split; [done|].
    rewrite Hperm. apply Permutation_swap.
Qed.

Lemma remove_all_placeholders (nas params : list Param) :
  Forall (λ p, is_not_attached p = true) nas →
  nas ⊆+ params →
  ∃ params', remove_all nas params = Some params' ∧
             filter_not_attached params' = filter_not_attached params.
Proof.
  revert params. induction nas as [|opt rest IH]; intros params Hall Hsub; [by eexists|].
  apply Forall_cons in Hall as [Hopt Hall].
  assert (opt ∈ params) as Hin.
  { eapply elem_of_submseteq; [|exact Hsub]. apply elem_of_cons; by left. }
  destruct (list_remove_elem_of _ _ Hin) as (ps & Hrm & Hperm).
  destruct (IH ps Hall) as (ps' & Hps' & Hf).
  { rewrite Hperm in Hsub. by apply (submseteq_app_inv_l _ _ [opt]). }
  exists ps'. simpl. rewrite Hrm. simpl. split; [done|].
  rewrite Hf. by eapply list_remove_filter.
Qed.
Lemma OptionGroup_option_spec (w : World) (func : Callback) (gid : nat) (g : OptionGroup)
    (decls : list string) (oattrs : Dict) :
  groups w !! gid = Some g →
  cls_option_error (g_class g) decls oattrs = None →
  OptionGroup_option gid decls oattrs func w =
    (Ok func,
     set_click_params (<[cb_id func := params_of w func ++ [GroupedOption gid decls oattrs]]>)
       (set_groups (alter (add_member {| m_decls := decls; m_attrs := oattrs |}) gid) w)).
Proof.
  intros Hg Herr. unfold OptionGroup_option, param_memo. unfold_M.
  by rewrite Hg, Herr.
Qed.

Lemma attach_all (stack : list OptionStackItem) (w : World) (func : Callback)
    (gs : list OptionGroup) (g : OptionGroup) :
  groups w = gs ++ [g] →
  Forall (λ item, cls_option_error (g_class g) (param_decls item) (attrs item) = None) stack →
  ∃ w',
    for_rebind (λ item, OptionGroup_option (length gs) (param_decls item) (attrs item))
               stack func w = (Ok func, w') ∧
    groups w' = gs ++ [add_members (member_of <$> stack) g] ∧
    params_of w' func = params_of w func ++ (grouped_of (length gs) <$> stack) ∧
    decorating_state w' = decorating_state w ∧
    not_attached_options w' = not_attached_options w ∧
    warned w' = warned w.
Proof.
  revert w g. induction stack as [|item rest IH]; intros w g Hgs Hok.
  - exists w. simpl. rewrite app_nil_r. destruct g; simpl.
    unfold add_members; simpl. rewrite app_nil_r. by rewrite Hgs.
  - apply Forall_cons in Hok as [Hitem Hrest].
    simpl. unfold mbind at 1. unfold M_bind at 1.
    rewrite (OptionGroup_option_spec w func (length gs) g); [|by rewrite Hgs, list_lookup_middle|done].
    set (w1 := set_click_params _ _).
    destruct (IH w1 (add_member (member_of item) g)) as (w' & Hrun & Hg & Hp & Hd & Hn & Hw).
    { subst w1; simpl. rewrite Hgs.
      replace (length gs) with (length gs + 0) by lia.
      by rewrite alter_app_r. }
    { done. }
    exists w'. split; [done|]. rewrite Hg, Hp, Hd, Hn, Hw.
    repeat split; try done.
    + unfold add_members, add_member; simpl. by rewrite <- app_assoc.
    + subst w1. unfold params_of; simpl. rewrite lookup_insert_eq; simpl.
      by rewrite <- app_assoc.
Qed.
Lemma drained_params (w : World) (func : Callback) (nas params' : list Param) :
  remove_all nas (params_of w func) = Some params' →
  params_of (drained w func nas params') func = params'.
Proof.
  intros Hall. unfold drained, params_of in *. destruct nas; simpl in *.
  - congruence.
  - by rewrite lookup_insert_eq.
Qed.

Lemma group_decorator_pending (w : World) (func : Callback) (name help : option string)
    (cls : PyClass) (kwargs : Dict) (stack : list OptionStackItem) (nas params' : list Param) :
  decorating_state w !! cb_id func = Some stack →
  not_attached_options w !! cb_id func = Some nas →
  remove_all nas (params_of w func) = Some params' →
  group_decorator name cls help kwargs func w =
    (check_mixing_decorators func stack (filter_not_attached params') ;;
     option_group ← construct_group cls name (dict_set "help" (help_val help) kwargs);
     for_rebind (λ item, OptionGroup_option option_group (param_decls item) (attrs item))
                stack func)
      (drained w func nas params').
Proof.
  intros Hst Hna Hall.
  unfold group_decorator, get_callback_and_params.
  unfold mbind at 1 2. unfold M_bind at 1 2. unfold get_world.
  case_decide as Hdom.
  { apply not_elem_of_dom in Hdom. congruence. }
  unfold mbind at 1. unfold M_bind at 1. unfold decorating_state_pop. rewrite Hst.
  unfold mbind at 1. unfold M_bind at 1. unfold not_attached_pop. simpl. rewrite Hna.
  unfold mbind at 1. unfold M_bind at 1.
  rewrite (for_each_params_remove nas params'); [|done].
  fold (drained w func nas params').
  unfold mbind at 1. unfold M_bind at 1.
  fold (params_of (drained w func nas params') func).
  by rewrite drained_params.
Qed.

(** ** Runs of decorators *)

Lemma fire_app (ds1 ds2 : list (Callback → M Callback)) (func : Callback) (w : World) :
  fire (ds1 ++ ds2) func w =
    match fire ds1 func w with
    | (Ok func', w') => fire ds2 func' w'
    | (Raise e, w') => (Raise e, w')
    end.
Proof.
  revert func w. induction ds1 as [|d ds1 IH]; intros func w; [done|].
  unfold fire in *. simpl. unfold mbind, M_bind.
  destruct (d func w) as [[func'|e] w']; [apply IH|done].
Qed.

Lemma click_option_spec (decls : list string) (func : Callback) (w : World) :
  click_option decls func w =
    (Ok func,
     set_click_params (<[cb_id func := params_of w func ++ [ClickOption decls]]>) w).
Proof. reflexivity. Qed.

(** Foreign option decorators only extend the recorded parameters. *)
Lemma fire_click_options (foreign : list (list string)) (func : Callback) (w : World) :
  ∃ w',
    fire (click_option <$> foreign) func w = (Ok func, w') ∧
    params_of w' func = params_of w func ++ (ClickOption <$> foreign) ∧
    decorating_state w' = decorating_state w ∧
    not_attached_options w' = not_attached_options w ∧
    groups w' = groups w ∧ warned w' = warned w.
Proof.
  revert w. induction foreign as [|decls rest IH]; intros w.
  - exists w. simpl. by rewrite app_nil_r.
  - unfold fire in *. simpl. unfold mbind, M_bind. rewrite click_option_spec.
    destruct (IH (set_click_params
                    (<[cb_id func := params_of w func ++ [ClickOption decls]]>) w))
      as (w' & Hrun & Hp & Hd & Hn & Hg & Hw).
    exists w'. split; [done|]. rewrite Hp, Hd, Hn, Hg, Hw.
    unfold params_of; simpl. rewrite lookup_insert_eq; simpl.
    by rewrite <- app_assoc.
Qed.

Lemma filter_not_attached_app (l1 l2 : list Param) :
  filter_not_attached (l1 ++ l2) = filter_not_attached l1 ++ filter_not_attached l2.
Proof. apply filter_app. Qed.

Lemma filter_not_attached_markers (k : nat) (ds : list Decl) :
  filter_not_attached (markers k ds) = [].
Proof.
  revert k. induction ds as [|d rest IH]; intros k; [done|].
  simpl. unfold filter_not_attached in *. rewrite filter_cons_False by (simpl; congruence).
  apply IH.
Qed.

Lemma filter_not_attached_foreign (foreign : list (list string)) :
  filter_not_attached (ClickOption <$> foreign) = ClickOption <$> foreign.
Proof.
  induction foreign as [|d rest IH]; [done|].
  rewrite fmap_cons. unfold filter_not_attached in *. rewrite filter_cons_True by done.
  by rewrite IH.
Qed.

Lemma markers_not_attached (k : nat) (ds : list Decl) :
  Forall (λ p, is_not_attached p = true) (markers k ds).
Proof.
  revert k. induction ds as [|d rest IH]; intros k; simpl; [constructor|].
  constructor; [done|apply IH].
Qed.

Lemma markers_decls (k : nat) (ds : list Decl) :
  decls_of <$> markers k ds = fst <$> ds.
Proof.
  revert k. induction ds as [|d rest IH]; intros k; simpl; [done|]. by rewrite IH.
Qed.

Lemma markers_decls_reverse (k : nat) (ds : list Decl) :
  decls_of <$> reverse (markers k (reverse ds)) = fst <$> ds.
Proof.
  rewrite fmap_reverse, markers_decls, fmap_reverse. apply reverse_involutive.
Qed.

(** A run of grouped-option decorators on a callback whose pending stack
    does not forbid it: in firing order, each leaves one stack entry and
    one placeholder, and the count they record is the number of
    parameters that are not placeholders. *)
Lemma fire_option_decorators (ds : list Decl) (func : Callback) (w : World) :
  (∀ item, last (stack_of w func) = Some item →
           length (filter_not_attached (params_of w func)) ≤ param_count item) →
  ∃ w',
    fire (option_decorator <$> ds) func w = (Ok func, w') ∧
    stack_of w' func =
      stack_of w func ++ (item_of (length (filter_not_attached (params_of w func))) <$> ds) ∧
    placeholders_of w' func = placeholders_of w func ++ markers (next_oid w) ds ∧
    params_of w' func = params_of w func ++ markers (next_oid w) ds ∧
    (ds ≠ [] → is_Some (decorating_state w' !! cb_id func) ∧
               is_Some (not_attached_options w' !! cb_id func)) ∧
    groups w' = groups w ∧ warned w' = warned w.
Proof.
  revert w. induction ds as [|d rest IH]; intros w Hle.
  - exists w. simpl. by rewrite !app_nil_r.
  - unfold fire in *. simpl. unfold mbind, M_bind.
    unfold option_decorator at 1. rewrite optgroup_option_ok by done.
    set (n := length (filter_not_attached (params_of w func))).
    set (w1 := Build_World _ _ _ _ _ _).
    assert (params_of w1 func = params_of w func ++ [NotAttachedOption (next_oid w) (fst d)])
      as Hp1 by (unfold params_of; subst w1; simpl; by rewrite lookup_insert_eq).
    assert (stack_of w1 func = stack_of w func ++ [item_of n d])
      as Hs1 by (unfold stack_of; subst w1; simpl; by rewrite lookup_insert_eq).
    assert (placeholders_of w1 func =
              placeholders_of w func ++ [NotAttachedOption (next_oid w) (fst d)])
      as Hn1 by (unfold placeholders_of; subst w1; simpl; by rewrite lookup_insert_eq).
    assert (length (filter_not_attached (params_of w1 func)) = n) as Hlen.
    { rewrite Hp1, filter_not_attached_app. simpl.
      unfold filter_not_attached at 2. rewrite filter_cons_False by (simpl; congruence).
      rewrite filter_nil, app_nil_r. done. }
    destruct (IH w1) as (w' & Hrun & Hs & Hn & Hp & Hsome & Hg & Hw).
    { intros item. rewrite Hs1, last_snoc. intros [= <-]. simpl. lia. }
    exists w'. split; [done|].
    rewrite Hs, Hn, Hp, Hg, Hw, Hlen, Hs1, Hn1, Hp1.
    change (next_oid w1) with (S (next_oid w)). simpl.
    rewrite <- !app_assoc. repeat split; try done.
    + destruct rest as [|d' rest'].
      * simpl in Hrun. injection Hrun as <-. subst w1; simpl. by rewrite lookup_insert_eq.
      * by apply Hsome.
    + destruct rest as [|d' rest'].
      * simpl in Hrun. injection Hrun as <-. subst w1; simpl. by rewrite lookup_insert_eq.
      * by apply Hsome.
Qed.

Lemma stack_of_lookup (w : World) (func : Callback) :
  is_Some (decorating_state w !! cb_id func) →
  decorating_state w !! cb_id func = Some (stack_of w func).
Proof. intros [stack Hst]. unfold stack_of. by rewrite Hst. Qed.

Lemma placeholders_of_lookup (w : World) (func : Callback) :
  is_Some (not_attached_options w !! cb_id func) →
  not_attached_options w !! cb_id func = Some (placeholders_of w func).
Proof. intros [l Hl]. unfold placeholders_of. by rewrite Hl. Qed.

(** ** An invariant of the bookkeeping *)

Lemma untouched_refl (id : nat) (w : World) : untouched id w w.
Proof. by repeat split. Qed.

Lemma untouched_trans (id : nat) (w1 w2 w3 : World) :
  untouched id w1 w2 → untouched id w2 w3 → untouched id w1 w3.
Proof.
  intros (Hd1 & Hn1 & Hp1) (Hd2 & Hn2 & Hp2). repeat split; [congruence|congruence|].
  intros id' Hne. by rewrite Hp2, Hp1.
Qed.

Lemma frames_ret {A} (id : nat) (a : A) : frames id (mret a).
Proof. intros w. apply untouched_refl. Qed.

Lemma frames_raise {A} (id : nat) (e : Exn) : frames id (raise (A := A) e).
Proof. intros w. apply untouched_refl. Qed.

Lemma frames_bind {A B} (id : nat) (m : M A) (f : A → M B) :
  frames id m → (∀ a, frames id (f a)) → frames id (m ≫= f).
Proof.
  intros Hm Hf w. unfold mbind, M_bind. specialize (Hm w).
  destruct (m w) as [[a|e] w']; simpl in *; [|done].
  eapply untouched_trans; [exact Hm|apply Hf].
Qed.

Lemma frames_get_world (id : nat) : frames id get_world.
Proof. intros w. apply untouched_refl. Qed.

Lemma frames_param_memo (func : Callback) (p : Param) : frames (cb_id func) (param_memo func p).
Proof.
  intros w. repeat split. intros id' Hne. simpl. by rewrite lookup_insert_ne.
Qed.

Lemma frames_check_mixing_decorators (id : nat) (callback : Callback)
    (stack : list OptionStackItem) (params : list Param) :
  frames id (check_mixing_decorators callback stack params).
Proof.
  unfold check_mixing_decorators. destruct (last stack); [|apply frames_ret].
  case_decide; [|apply frames_ret]. destruct (last params); apply frames_raise.
Qed.

Lemma frames_construct_group (id : nat) (cls : PyClass) (name : option string) (kwargs : Dict) :
  frames id (construct_group cls name kwargs).
Proof.
  unfold construct_group. destruct (cls_init_error _ _ _); [apply frames_raise|].
  intros w. by repeat split.
Qed.

Lemma frames_OptionGroup_option (gid : nat) (decls : list string) (oattrs : Dict)
    (func : Callback) :
  frames (cb_id func) (OptionGroup_option gid decls oattrs func).
Proof.
  unfold OptionGroup_option. apply frames_bind; [apply frames_get_world|]. intros w0.
  destruct (groups w0 !! gid) as [g|]; [|apply frames_raise].
  destruct (cls_option_error _ _ _); [apply frames_raise|].
  apply frames_bind; [intros w; by repeat split|]. intros _.
  apply frames_bind; [apply frames_param_memo|]. intros _. apply frames_ret.
Qed.

(** What is consistent stays so when the dictionaries are left alone and
    only the parameters of a callback without bookkeeping change. *)
Lemma consistent_untouched (id : nat) (w w' : World) :
  consistent w → decorating_state w !! id = None → untouched id w w' → consistent w'.
Proof.
  intros Hinv Hnone (Hd & Hn & Hp) id'. specialize (Hinv id'). rewrite Hd, Hn.
  destruct (decide (id' = id)) as [->|Hne].
  - rewrite Hnone in *. by destruct (not_attached_options w !! id).
  - by rewrite (Hp id' Hne).
Qed.

Lemma consistent_click_option (w : World) (decls : list string) (func : Callback) :
  consistent w → consistent (snd (click_option decls func w)).
Proof.
  intros Hinv id. specialize (Hinv id). rewrite click_option_spec. simpl.
  destruct (decorating_state w !! id) as [stack|], (not_attached_options w !! id) as [nas|];
    try done.
  destruct Hinv as (Hne & Hall & Hsub). repeat split; try done.
  destruct (decide (id = cb_id func)) as [->|Hid].
  - rewrite lookup_insert_eq. simpl. by apply submseteq_inserts_r.
  - by rewrite lookup_insert_ne.
Qed.

Lemma consistent_optgroup_option (w : World) (decls : list string) (oattrs : Dict)
    (func : Callback) :
  consistent w → consistent (snd (optgroup_option decls oattrs func w)).
Proof.
  intros Hinv.
  destruct (last (stack_of w func)) as [item|] eqn:Hlast.
  - destruct (decide (param_count item < length (filter_not_attached (params_of w func))))
      as [Hlt|Hge].
    { destruct (optgroup_option_mixing w func decls oattrs item Hlast Hlt) as (p & _ & ->).
      done. }
    rewrite optgroup_option_ok;
      [|intros item' Hl; rewrite Hlast in Hl; injection Hl as <-; lia].
    intros id. specialize (Hinv id). simpl.
    destruct (decide (id = cb_id func)) as [->|Hid].
    + rewrite !lookup_insert_eq. unfold stack_of, placeholders_of, params_of in *.
      destruct (decorating_state w !! cb_id func) as [stack|],
               (not_attached_options w !! cb_id func) as [nas|]; try done.
      simpl in *. destruct Hinv as (Hne & Hall & Hsub). repeat split.
      * by destruct stack.
      * apply Forall_app. split; [done|]. by repeat constructor.
      * by apply submseteq_app.
    + by rewrite !lookup_insert_ne.
  - rewrite optgroup_option_ok; [|by rewrite Hlast].
    intros id. specialize (Hinv id). simpl.
    destruct (decide (id = cb_id func)) as [->|Hid].
    + rewrite !lookup_insert_eq. unfold stack_of, placeholders_of, params_of in *.
      destruct (decorating_state w !! cb_id func) as [stack|],
               (not_attached_options w !! cb_id func) as [nas|]; try done; simpl in *.
      * destruct Hinv as (Hne & Hall & Hsub). repeat split.
        -- by destruct stack.
        -- apply Forall_app. split; [done|]. by repeat constructor.
        -- by apply submseteq_app.
      * repeat split; [done|by repeat constructor|]. by apply submseteq_inserts_l.
    + by rewrite !lookup_insert_ne.
Qed.

Lemma consistent_drained (w : World) (func : Callback) (nas params' : list Param) :
  consistent w → consistent (drained w func nas params').
Proof.
  intros Hinv id. specialize (Hinv id).
  assert (decorating_state (drained w func nas params') =
            delete (cb_id func) (decorating_state w)) as -> by (unfold drained; by destruct nas).
  assert (not_attached_options (drained w func nas params') =
            delete (cb_id func) (not_attached_options w)) as -> by (unfold drained; by destruct nas).
  destruct (decide (id = cb_id func)) as [->|Hid].
  - by rewrite !lookup_delete_eq.
  - rewrite !lookup_delete_ne by done.
    assert (click_params (drained w func nas params') !! id = click_params w !! id) as ->; [|done].
    unfold drained. destruct nas; simpl; [done|]. by rewrite lookup_insert_ne.
Qed.

Lemma OptionGroup_option_returns (gid : nat) (decls : list string) (oattrs : Dict)
    (func func' : Callback) (w w' : World) :
  OptionGroup_option gid decls oattrs func w = (Ok func', w') → func' = func.
Proof.
  unfold OptionGroup_option, param_memo. unfold_M.
  destruct (groups w !! gid) as [g|]; [|done].
  destruct (cls_option_error _ _ _); [done|]. by intros [= <- _].
Qed.

Lemma frames_attach_loop (gid : nat) (stack : list OptionStackItem) (func : Callback) :
  frames (cb_id func)
    (for_rebind (λ item, OptionGroup_option gid (param_decls item) (attrs item)) stack func).
Proof.
  induction stack as [|item rest IH]; [apply frames_ret|].
  intros w. simpl. unfold mbind, M_bind.
  pose proof (frames_OptionGroup_option gid (param_decls item) (attrs item) func w) as Hstep.
  destruct (OptionGroup_option gid (param_decls item) (attrs item) func w)
    as [[func'|e] w'] eqn:Hrun; [|done].
  apply OptionGroup_option_returns in Hrun as ->.
  eapply untouched_trans; [exact Hstep|apply IH].
Qed.

Lemma consistent_group_decorator (w : World) (func : Callback) (name help : option string)
    (cls : PyClass) (kwargs : Dict) :
  consistent w → consistent (snd (group_decorator name cls help kwargs func w)).
Proof.
  intros Hinv.
  destruct (decorating_state w !! cb_id func) as [stack|] eqn:Hst.
  - pose proof (Hinv (cb_id func)) as Hid. rewrite Hst in Hid.
    destruct (not_attached_options w !! cb_id func) as [nas|] eqn:Hna; [|done].
    destruct Hid as (_ & Hall & Hsub).
    destruct (remove_all_placeholders nas (params_of w func) Hall Hsub) as (ps & Hps & _).
    rewrite (group_decorator_pending w func name help cls kwargs stack nas ps) by done.
    apply (consistent_untouched (cb_id func) (drained w func nas ps)).
    + apply consistent_drained, Hinv.
    + unfold drained. destruct nas; simpl; apply lookup_delete_eq.
    + apply frames_bind; [apply frames_check_mixing_decorators|]. intros _.
      apply frames_bind; [apply frames_construct_group|]. intros gid.
      apply frames_attach_loop.
  - rewrite group_decorator_empty by done. done.
Qed.

Lemma consistent_construct_group (w : World) (cls : PyClass) (name : option string)
    (kwargs : Dict) :
  consistent w → consistent (snd (construct_group cls name kwargs w)).
Proof.
  intros Hinv. unfold construct_group. by destruct (cls_init_error _ _ _).
Qed.

Lemma consistent_OptionGroup_option (w : World) (gid : nat) (decls : list string)
    (oattrs : Dict) (func : Callback) :
  consistent w → consistent (snd (OptionGroup_option gid decls oattrs func w)).
Proof.
  intros Hinv. unfold OptionGroup_option, param_memo. unfold_M.
  destruct (groups w !! gid) as [g|]; [|done].
  destruct (cls_option_error _ _ _); [done|]. simpl.
  intros id. specialize (Hinv id). simpl.
  destruct (decorating_state w !! id) as [stack|], (not_attached_options w !! id) as [nas|];
    try done.
  destruct Hinv as (Hne & Hall & Hsub). repeat split; try done.
  destruct (decide (id = cb_id func)) as [->|Hid].
  - rewrite lookup_insert_eq. simpl. by apply submseteq_inserts_r.
  - by rewrite lookup_insert_ne.
Qed.

(** Every store that decorating can produce is consistent. *)
Lemma reachable_consistent (w : World) : reachable w → consistent w.
Proof.
  induction 1 as [|w decls func _ IH|w decls oattrs func _ IH
                  |w name cls help kwargs func _ IH|w cls name kwargs _ IH
                  |w gid decls oattrs func _ IH].
  - intros id. simpl. by rewrite !lookup_empty.
  - by apply consistent_click_option.
  - by apply consistent_optgroup_option.
  - by apply consistent_group_decorator.
  - by apply consistent_construct_group.
  - by apply consistent_OptionGroup_option.
Qed.

Lemma reachable_placeholders_recorded (w : World) (func : Callback)
    (stack : list OptionStackItem) :
  reachable w →
  decorating_state w !! cb_id func = Some stack →
  stack ≠ [] ∧ placeholders_recorded w func.
Proof.
  intros Hreach Hst. pose proof (reachable_consistent w Hreach (cb_id func)) as Hinv.
  rewrite Hst in Hinv.
  destruct (not_attached_options w !! cb_id func) as [nas|] eqn:Hna; [|done].
  destruct Hinv as (Hne & Hall & Hsub). split; [done|]. by exists nas.
Qed.

Lemma reachable_pending (w : World) (func : Callback) :
  reachable w →
  stack_of w func ≠ [] →
  decorating_state w !! cb_id func = Some (stack_of w func) ∧ placeholders_recorded w func.
Proof.
  intros Hreach Hne.
  destruct (decorating_state w !! cb_id func) as [stack|] eqn:Hst.
  - split; [unfold stack_of; by rewrite Hst|]. by eapply reachable_placeholders_recorded.
  - unfold stack_of in Hne. by rewrite Hst in Hne.
Qed.

Lemma reachable_no_pending (w : World) (func : Callback) :
  reachable w →
  stack_of w func = [] →
  decorating_state w !! cb_id func = None ∧ not_attached_options w !! cb_id func = None.
Proof.
  intros Hreach Hempty. pose proof (reachable_consistent w Hreach (cb_id func)) as Hinv.
  unfold stack_of in Hempty.
  destruct (decorating_state w !! cb_id func) as [stack|] eqn:Hst.
  - destruct (not_attached_options w !! cb_id func); [|done].
    destruct Hinv as [Hne _]. simpl in Hempty. congruence.
  - by destruct (not_attached_options w !! cb_id func).
Qed.

(** The stores of the examples are stores of the engine. *)
Lemma reachable_mixed_world : reachable mixed_world.
Proof.
  exact (reach_click_option _ ["--hello"] cli
           (reach_optgroup_option _ ["--bar"] [] cli reach_empty)).
Qed.

Lemma reachable_hello2_world : reachable hello2_world.
Proof. exact (reach_click_option _ ["--hello2"] cli reach_empty). Qed.

Lemma reachable_foo_world : reachable foo_world.
Proof. exact (reach_optgroup_option _ ["--foo"] [] cli reach_empty). Qed.

(** ** The mis-ordering check *)

Lemma group_decorator_mixing (w : World) (func : Callback) (name help : option string)
    (cls : PyClass) (kwargs : Dict) (stack : list OptionStackItem) (item : OptionStackItem)
    (wrong_option : Param) :
  decorating_state w !! cb_id func = Some stack →
  last stack = Some item →
  placeholders_recorded w func →
  param_count item < length (filter_not_attached (params_of w func)) →
  last (filter_not_attached (params_of w func)) = Some wrong_option →
  fst (group_decorator name cls help kwargs func w) =
    Raise (TypeError (mixing_decorators_message wrong_option func)).
Proof.
  intros Hst Hlast (nas & Hna & Hall & Hsub) Hlt Hwrong.
  destruct (remove_all_placeholders nas (params_of w func) Hall Hsub) as (ps & Hps & Hf).
  rewrite (group_decorator_pending w func name help cls kwargs stack nas ps) by done.
  unfold mbind at 1. unfold M_bind at 1.
  unfold check_mixing_decorators. rewrite Hlast, Hf.
  case_decide; [|lia]. by rewrite Hwrong.
Qed.

Lemma last_filter_not_attached (params : list Param) (p : Param) :
  last (filter_not_attached params) = Some p → is_not_attached p = false.
Proof.
  intros Hlast. apply last_Some_elem_of in Hlast.
  unfold filter_not_attached in Hlast. by apply list_elem_of_filter in Hlast as [? _].
Qed.

(** C3. For a callback with a non-empty pending stack, in any store that
    decorating can produce: when a grouped-option decorator fires, or the
    group decorator makes its final check, and more parameters that are
    not placeholders are recorded than the last pending entry counted, a
    [TypeError] is raised whose message is "Check decorator position for
    [<decls>] option", naming the declaration strings of the last such
    parameter, with the suffix " in '<command>'" when the name is known;
    otherwise the grouped-option decorator appends the new entry, with
    the current count, to the pending stack. *)
Theorem mixing_check_decides (w : World) (func : Callback) :
  reachable w →
  stack_of w func ≠ [] →
  let params := filter_not_attached (params_of w func) in
  ∃ item,
    last (stack_of w func) = Some item ∧
    (param_count item < length params →
     ∃ foreign,
       last params = Some foreign ∧ is_not_attached foreign = false ∧
       let msg := "Check decorator position for " +:+ repr_list (decls_of foreign)
                  +:+ " option"
                  +:+ match cb_name func with
                      | Some n => " in '" +:+ n +:+ "'"
                      | None => EmptyString
                      end in
       (∀ decls oattrs,
          fst (optgroup_option decls oattrs func w) = Raise (TypeError msg)) ∧
       (∀ name cls help kwargs,
          fst (group_decorator name cls help kwargs func w) = Raise (TypeError msg)))
    ∧
    (length params ≤ param_count item →
     ∀ decls oattrs, ∃ w',
       optgroup_option decls oattrs func w = (Ok func, w') ∧
       stack_of w' func =
         stack_of w func ++ [{| param_decls := decls; attrs := oattrs;
                                param_count := length params |}]).
Proof.
  intros Hreach Hne params.
  destruct (reachable_pending w func Hreach Hne) as [Hst Hrec].
  destruct (last (stack_of w func)) as [item|] eqn:Hlast;
    [|by apply last_None in Hlast].
  exists item. split; [done|]. split.
  - intros Hlt.
    destruct (optgroup_option_mixing w func [] [] item) as (foreign & Hforeign & _);
      [done|done|].
    exists foreign. split; [done|]. split; [by eapply last_filter_not_attached|].
    split.
    + intros decls oattrs.
      destruct (optgroup_option_mixing w func decls oattrs item) as (p & Hp & Hrun);
        [done|done|].
      rewrite Hrun. rewrite Hforeign in Hp. by injection Hp as <-.
    + intros name cls help kwargs. by eapply group_decorator_mixing.
  - intros Hle decls oattrs. eexists. split.
    + apply optgroup_option_ok. rewrite Hlast. by intros ? [= <-].
    + unfold stack_of at 1. simpl. by rewrite lookup_insert_eq.
Qed.

Lemma mixing_check_decides_witness :
  reachable mixed_world ∧ stack_of mixed_world cli ≠ [] ∧
  ∃ foreign,
    last (filter_not_attached (params_of mixed_world cli)) = Some foreign ∧
    is_not_attached foreign = false ∧
    (∀ decls oattrs,
       fst (optgroup_option decls oattrs cli mixed_world) =
         Raise (TypeError "Check decorator position for ['--hello'] option in 'cli'")) ∧
    (∀ name cls help kwargs,
       fst (group_decorator name cls help kwargs cli mixed_world) =
         Raise (TypeError "Check decorator position for ['--hello'] option in 'cli'")).
Proof.
  split; [exact reachable_mixed_world|]. split; [discriminate|].
  destruct (mixing_check_decides mixed_world cli reachable_mixed_world)
    as (item & Hlast & Hraise & _); [discriminate|].
  vm_compute in Hlast. injection Hlast as <-.
  destruct Hraise as (foreign & Hforeign & Hna & Hopt & Hgrp).
  - vm_compute. lia.
  - exists foreign. vm_compute in Hforeign. injection Hforeign as <-.
    repeat split; assumption.
Defined.

(** C10. The mis-ordering branch cannot be reached while the pending stack
    of a callback is empty: whatever foreign option decorators were
    applied before, the first grouped-option decorator returns the
    function, and records every parameter that is not a placeholder in the
    count of its stack entry. *)
Theorem first_option_never_misordered (w : World) (func : Callback)
    (foreign : list (list string)) (decls : list string) (oattrs : Dict) :
  stack_of w func = [] →
  ∃ w1 w2,
    fire (click_option <$> foreign) func w = (Ok func, w1) ∧
    (∀ params w', check_mixing_decorators func (stack_of w1 func) params w' = (Ok tt, w')) ∧
    optgroup_option decls oattrs func w1 = (Ok func, w2) ∧
    stack_of w2 func =
      [{| param_decls := decls; attrs := oattrs;
          param_count := length (filter_not_attached (params_of w func)) + length foreign |}].
Proof.
  intros Hempty.
  destruct (fire_click_options foreign func w) as (w1 & Hrun & Hp & Hd & _).
  assert (stack_of w1 func = []) as Hempty1 by (unfold stack_of in *; by rewrite Hd).
  exists w1. eexists. split; [done|]. split; [|split].
  - intros params w'. by rewrite Hempty1.
  - apply optgroup_option_ok. by rewrite Hempty1.
  - unfold stack_of at 1; simpl. rewrite lookup_insert_eq; simpl.
    rewrite Hempty1, Hp, filter_not_attached_app, filter_not_attached_foreign.
    by rewrite length_app, length_fmap.
Qed.

Lemma first_option_never_misordered_witness :
  stack_of empty_world cli = [] ∧
  ∃ w1 w2,
    fire (click_option <$> [["--hello2"]; ["--hello3"]]) cli empty_world = (Ok cli, w1) ∧
    optgroup_option ["--bar"] [] cli w1 = (Ok cli, w2) ∧
    stack_of w2 cli = [{| param_decls := ["--bar"]; attrs := []; param_count := 2 |}].
Proof.
  split; [reflexivity|].
  destruct (first_option_never_misordered empty_world cli
              [["--hello2"]; ["--hello3"]] ["--bar"] [])
    as (w1 & w2 & Hrun & _ & Hopt & Hstack); [reflexivity|].
  exists w1, w2. repeat split; assumption.
Defined.

(** ** The group decorator *)

(** C1. On the decorator list of the test suite, [@optgroup('Group 1',
    help=...)] above [@click.option('--hello2')] with no grouped option in
    between, the group decorator returns the function with its parameters
    as they were and builds no group, and it emits one warning with the
    expected message; the category of that warning is [UserWarning], so no
    [RuntimeWarning] is emitted. *)
Theorem empty_group_warning_category :
  ∃ d w',
    optgroup_call (Some "Group 1") (Some "Group 1 description") None [] = Ok d ∧
    d cli hello2_world = (Ok cli, w') ∧
    click_params w' = click_params hello2_world ∧
    groups w' = groups hello2_world ∧
    warned w' =
      [{| category := UserWarning;
          message := "The empty option group " +:+ dquote +:+ "Group 1" +:+ dquote
                     +:+ " was found. The group will not be added." |}] ∧
    Forall (λ x, category x ≠ RuntimeWarning) (warned w').
Proof.
  eexists. eexists. split; [reflexivity|].
  split; [by apply group_decorator_empty|].
  repeat split. by repeat constructor.
Qed.

(** The general form of the path: in any store that decorating can
    produce, a callback without pending entries gets the function back and
    one more warning, and nothing else changes. *)
Lemma group_decorator_no_pending (w : World) (func : Callback) (name help : option string)
    (cls : option PyClass) (kwargs : Dict) (d : Callback → M Callback) :
  optgroup_group name cls help kwargs = Ok d →
  reachable w →
  stack_of w func = [] →
  ∃ w',
    d func w = (Ok func, w') ∧
    click_params w' = click_params w ∧ groups w' = groups w ∧
    decorating_state w' = decorating_state w ∧
    not_attached_options w' = not_attached_options w ∧
    warned w' = warned w ++ [{| category := UserWarning;
                                message := empty_group_message name |}].
Proof.
  intros Hd Hreach Hempty.
  destruct (reachable_no_pending w func Hreach Hempty) as [Hnone _].
  unfold optgroup_group in Hd.
  destruct cls as [c|]; [destruct (cls_is_option_group c)|]; simplify_eq;
    (eexists; split; [by apply group_decorator_empty|done]).
Qed.

(** C8. A class given to the group decorator factory that is not a
    subclass of [OptionGroup] makes the factory raise a [TypeError]; and
    when the decorator reaches the constructor of the class (the callback
    has pending entries, in the right order) and the constructor rejects
    its arguments, the decorator raises a [TypeError] with the message of
    the constructor in which ["'<cls>' constructor"] stands for
    ["__init__()"]: a message that starts with ["__init__()"] starts with
    ["'<cls>' constructor"] instead. *)
Theorem group_class_errors (name help : option string) (cls : PyClass) (kwargs : Dict) :
  let ctor := "'" +:+ cls_name cls +:+ "' constructor" in
  (cls_is_option_group cls = false →
   optgroup_group name (Some cls) help kwargs =
     Raise (TypeError "'cls' must be a subclass of 'OptionGroup' class."))
  ∧
  (cls_is_option_group cls = true →
   ∃ d, optgroup_group name (Some cls) help kwargs = Ok d ∧
     ∀ w func err,
       reachable w →
       stack_of w func ≠ [] →
       (∀ item, last (stack_of w func) = Some item →
                length (filter_not_attached (params_of w func)) ≤ param_count item) →
       cls_init_error cls name (dict_set "help" (help_val help) kwargs) = Some err →
       fst (d func w) = Raise (TypeError (replace "__init__()" ctor err)))
  ∧
  (∀ rest, replace "__init__()" ctor ("__init__()" +:+ rest)
           = ctor +:+ replace "__init__()" ctor rest).
Proof.
  intros ctor. split; [|split]; [| |intros rest; apply replace_init_prefix];
    intros Hsub; unfold optgroup_group; rewrite Hsub; [done|].
  eexists. split; [done|].
  intros w func err Hreach Hne Hle Herr.
  destruct (reachable_pending w func Hreach Hne) as [Hst (nas & Hna & Hall & Hsubm)].
  set (stack := stack_of w func) in *.
  destruct (remove_all_placeholders nas (params_of w func) Hall Hsubm) as (ps & Hps & Hf).
  rewrite (group_decorator_pending w func name help cls kwargs stack nas ps) by done.
  unfold mbind at 1. unfold M_bind at 1.
  unfold check_mixing_decorators. rewrite Hf.
  assert (∀ w0, construct_group cls name (dict_set "help" (help_val help) kwargs) w0 =
                (Raise (TypeError (replace "__init__()" ctor err)), w0)) as Hctor.
  { intros w0. unfold construct_group. by rewrite Herr. }
  destruct (last stack) as [item|] eqn:Hlast.
  - specialize (Hle item eq_refl). case_decide; [lia|].
    unfold mbind, M_bind, mret, M_ret. by rewrite Hctor.
  - unfold mbind, M_bind, mret, M_ret. by rewrite Hctor.
Qed.

Lemma group_class_errors_witness :
  optgroup_group None (Some object_class) None [] =
    Raise (TypeError "'cls' must be a subclass of 'OptionGroup' class.")
  ∧
  ∃ d, optgroup_group None (Some OptionGroup_class) None [("oops", VBool true)] = Ok d ∧
       fst (d cli foo_world) =
         Raise (TypeError
                  "'OptionGroup' constructor got an unexpected keyword argument 'oops'").
Proof.
  split.
  - by apply (group_class_errors None None object_class []).
  - destruct (group_class_errors None None OptionGroup_class [("oops", VBool true)])
      as (_ & Hctor & _).
    destruct Hctor as (d & Hd & Hraise); [reflexivity|].
    exists d. split; [exact Hd|].
    apply (Hraise foo_world cli "__init__() got an unexpected keyword argument 'oops'").
    + exact reachable_foo_world.
    + discriminate.
    + intros item [= <-]. vm_compute. lia.
    + reflexivity.
Defined.

(** C9. Calling the manager object is calling its [group] method with the
    same arguments: the same exception, or the same decorator. *)
Theorem call_is_group (name help : option string) (cls : option PyClass) (kwargs : Dict) :
  optgroup_call name help cls kwargs = optgroup_group name cls help kwargs ∧
  match optgroup_call name help cls kwargs, optgroup_group name cls help kwargs with
  | Ok d, Ok d' => ∀ func w, d func w = d' func w
  | Raise e, Raise e' => e = e'
  | _, _ => False
  end.
Proof.
  split; [reflexivity|].
  unfold optgroup_call. by destruct (optgroup_group name cls help kwargs).
Qed.

Lemma group_decorator_attaches (w : World) (func : Callback) (name help : option string)
    (cls : PyClass) (kwargs : Dict) (stack : list OptionStackItem) (nas params' : list Param) :
  decorating_state w !! cb_id func = Some stack →
  not_attached_options w !! cb_id func = Some nas →
  remove_all nas (params_of w func) = Some params' →
  (∀ item, last stack = Some item →
           length (filter_not_attached params') ≤ param_count item) →
  cls_init_error cls name (dict_set "help" (help_val help) kwargs) = None →
  Forall (λ item, cls_option_error cls (param_decls item) (attrs item) = None) stack →
  ∃ w',
    group_decorator name cls help kwargs func w = (Ok func, w') ∧
    groups w' =
      groups w ++ [{| g_class := cls; g_name := default EmptyString name;
                      g_help := help_of (dict_set "help" (help_val help) kwargs);
                      g_options := member_of <$> stack |}] ∧
    params_of w' func = params' ++ (grouped_of (length (groups w)) <$> stack) ∧
    decorating_state w' = delete (cb_id func) (decorating_state w) ∧
    not_attached_options w' = delete (cb_id func) (not_attached_options w) ∧
    warned w' = warned w.
Proof.
  intros Hst Hna Hall Hle Hinit Hopts.
  rewrite (group_decorator_pending w func name help cls kwargs stack nas params') by done.
  set (w1 := drained w func nas params').
  assert (groups w1 = groups w ∧ decorating_state w1 = delete (cb_id func) (decorating_state w)
          ∧ not_attached_options w1 = delete (cb_id func) (not_attached_options w)
          ∧ warned w1 = warned w) as (Hg1 & Hd1 & Hn1 & Hw1).
  { subst w1. unfold drained. by destruct nas. }
  assert (check_mixing_decorators func stack (filter_not_attached params') w1 = (Ok tt, w1))
    as Hcheck.
  { unfold check_mixing_decorators. destruct (last stack) as [item|]; [|done].
    specialize (Hle item eq_refl). by case_decide; [lia|]. }
  unfold mbind at 1. unfold M_bind at 1. rewrite Hcheck.
  unfold mbind at 1. unfold M_bind at 1.
  unfold construct_group. rewrite Hinit. unfold new_group. unfold_M. simpl.
  set (g0 := Build_OptionGroup _ _ _ _).
  set (w2 := set_groups _ w1).
  destruct (attach_all stack w2 func (groups w1) g0) as (w' & Hrun & Hg & Hp & Hd & Hn & Hw);
    [done|done|].
  exists w'. split; [done|]. rewrite Hg, Hp, Hd, Hn, Hw.
  subst w2 g0; simpl. rewrite Hg1, Hd1, Hn1, Hw1.
  repeat split; try done.
  subst w1. change (params_of (set_groups _ ?x) func) with (params_of x func).
  by rewrite drained_params.
Qed.

(** ** The order of attachment *)

(** C7, as the code has it.  A run of grouped-option decorators closed by
    a group decorator, on a callback without pending entries, for a group
    class that accepts its arguments and the options: the group
    that is built holds the options in the order in which their
    decorators fired, bottom-up, which is the reverse of the order in
    which the declarations are written, top to bottom. *)
Theorem attach_order_is_firing_order (w0 : World) (func : Callback) (visible : list Decl)
    (name help : option string) (cls : option PyClass) (kwargs : Dict) :
  visible ≠ [] →
  reachable w0 →
  stack_of w0 func = [] →
  cls_is_option_group (default OptionGroup_class cls) = true →
  cls_init_error (default OptionGroup_class cls) name
                 (dict_set "help" (help_val help) kwargs) = None →
  Forall (λ d, cls_option_error (default OptionGroup_class cls) (fst d) (snd d) = None)
         visible →
  ∃ d w g,
    optgroup_group name cls help kwargs = Ok d ∧
    decorate (d :: (option_decorator <$> visible)) func w0 = (Ok func, w) ∧
    groups w = groups w0 ++ [g] ∧
    g_options g = (λ d, {| m_decls := fst d; m_attrs := snd d |}) <$> reverse visible.
Proof.
  intros Hne Hreach Hs0 Hsub Hinit Hopts.
  destruct (reachable_no_pending w0 func Hreach Hs0) as [Hst0 Hna0].
  assert (optgroup_group name cls help kwargs =
            Ok (group_decorator name (default OptionGroup_class cls) help kwargs))
    as Hfactory.
  { unfold optgroup_group. destruct cls as [c'|]; [|done]. simpl in *. by rewrite Hsub. }
  set (c := default OptionGroup_class cls) in *.
  assert (placeholders_of w0 func = []) as Hn0 by (unfold placeholders_of; by rewrite Hna0).
  destruct (fire_option_decorators (reverse visible) func w0)
    as (w1 & Hrun & Hs & Hn & Hp & Hsome & Hg & Hw).
  { by rewrite Hs0. }
  rewrite Hs0 in Hs. rewrite Hn0 in Hn. simpl in Hs, Hn.
  destruct Hsome as [Hsome1 Hsome2].
  { intros Hrev. apply (f_equal reverse) in Hrev. by rewrite reverse_involutive in Hrev. }
  apply stack_of_lookup in Hsome1. apply placeholders_of_lookup in Hsome2.
  rewrite Hs in Hsome1. rewrite Hn in Hsome2.
  set (n := length (filter_not_attached (params_of w0 func))) in *.
  destruct (remove_all_placeholders (markers (next_oid w0) (reverse visible))
              (params_of w1 func)) as (ps & Hps & Hf).
  { apply markers_not_attached. }
  { rewrite Hp. apply submseteq_inserts_l. done. }
  destruct (group_decorator_attaches w1 func name help c kwargs
              (item_of n <$> reverse visible)
              (markers (next_oid w0) (reverse visible)) ps)
    as (w & Hgrp & Hgw & _); try done.
  { intros item Hlast. apply last_Some_elem_of, list_elem_of_fmap in Hlast as (d & -> & _).
    rewrite Hf, Hp, filter_not_attached_app, filter_not_attached_markers, app_nil_r.
    simpl. done. }
  { apply Forall_fmap. apply Forall_reverse. simpl. done. }
  eexists _, w, _. split; [exact Hfactory|]. split; [|split; [by rewrite Hgw, Hg|]].
  - unfold decorate. rewrite reverse_cons, fire_app, <- fmap_reverse, Hrun.
    unfold fire; simpl. unfold mbind, M_bind. by rewrite Hgrp.
  - simpl. rewrite <- list_fmap_compose. done.
Qed.

Lemma attach_order_is_firing_order_witness :
  ∃ d w g,
    optgroup_group None None None [] = Ok d ∧
    decorate (d :: (option_decorator <$> foo_bar)) cli empty_world = (Ok cli, w) ∧
    groups w = [g] ∧
    g_options g = [{| m_decls := ["--bar"]; m_attrs := [] |};
                   {| m_decls := ["--foo"]; m_attrs := [] |}].
Proof.
  apply (attach_order_is_firing_order empty_world cli foo_bar None None None []).
  - discriminate.
  - exact reach_empty.
  - reflexivity.
  - reflexivity.
  - reflexivity.
  - repeat constructor.
Defined.

(** C7 as the specification states it does not hold: on the decorator
    list of [test_default_group_name], [--foo] above [--bar], the options
    of the group are [--bar], [--foo], not [--foo], [--bar]. *)
Lemma attach_order_not_visible_order :
  ∃ d w g,
    optgroup_call None None None [] = Ok d ∧
    decorate (d :: (option_decorator <$> foo_bar)) cli empty_world = (Ok cli, w) ∧
    groups w = [g] ∧
    m_decls <$> g_options g = [["--bar"]; ["--foo"]] ∧
    m_decls <$> g_options g ≠ fst <$> foo_bar.
Proof.
  eexists _, _, _. split; [reflexivity|]. split; [vm_compute; reflexivity|].
  split; [reflexivity|]. split; [reflexivity|]. discriminate.
Qed.

Lemma for_rebind_fmap {A B} (h : A → B) (body : B → Callback → M Callback) (l : list A)
    (func : Callback) (w : World) :
  for_rebind body (h <$> l) func w = for_rebind (λ a, body (h a)) l func w.
Proof.
  revert func w. induction l as [|a rest IH]; intros func w; [done|].
  simpl. unfold mbind, M_bind.
  destruct (body (h a) func w) as [[func'|e] w']; [apply IH|done].
Qed.

(** The order of C7 is that of the imperative interface: the decorators
    [@group.option(...)] of a group, written top to bottom as [visible],
    fire bottom-up and leave the options of the group in that order. *)
Lemma imperative_attach_order (visible : list Decl) (w : World) (func : Callback)
    (gs : list OptionGroup) (g : OptionGroup) :
  groups w = gs ++ [g] →
  Forall (λ d, cls_option_error (g_class g) (fst d) (snd d) = None) visible →
  ∃ w',
    decorate ((λ d, OptionGroup_option (length gs) (fst d) (snd d)) <$> visible) func w
      = (Ok func, w') ∧
    groups w' =
      gs ++ [add_members ((λ d, {| m_decls := fst d; m_attrs := snd d |}) <$> reverse visible)
                         g].
Proof.
  intros Hgs Hok.
  destruct (attach_all (item_of 0 <$> reverse visible) w func gs g) as (w' & Hrun & Hg & _).
  { done. }
  { apply Forall_fmap, Forall_reverse. done. }
  exists w'. split.
  - unfold decorate, fire. rewrite <- fmap_reverse, for_rebind_fmap.
    by rewrite for_rebind_fmap in Hrun.
  - rewrite Hg. by rewrite <- list_fmap_compose.
Qed.

(** ** The placeholder at invocation time *)

Section FrameworkFacts.

Variable get_error_hint : list string → string.

Lemma hint_loop_fold (options : list Param) (acc : string) :
  fold_left (λ acc option, acc +:+ "  " +:+ get_error_hint (decls_of option) +:+ newline)
            options acc
  = acc +:+ hint_loop get_error_hint options.
Proof.
  unfold hint_loop. revert acc. induction options as [|p rest IH]; intros acc.
  - simpl. by rewrite string_app_nil_r.
  - simpl. rewrite IH. rewrite (IH (EmptyString +:+ _)).
    by rewrite string_app_assoc.
Qed.

Lemma hint_loop_cons (p : Param) (rest : list Param) :
  hint_loop get_error_hint (p :: rest) =
    hint_line get_error_hint (decls_of p) +:+ newline +:+ hint_loop get_error_hint rest.
Proof.
  unfold hint_loop at 1. simpl. rewrite hint_loop_fold. unfold hint_line.
  change (EmptyString +:+ ?s) with s. by rewrite !string_app_assoc.
Qed.

Lemma drop_last_hint_loop (options : list Param) :
  drop_last (hint_loop get_error_hint options) =
    join newline (hint_line get_error_hint <$> (decls_of <$> options)).
Proof.
  induction options as [|p rest IH]; [done|].
  rewrite hint_loop_cons. destruct rest as [|q rest'].
  - change (hint_loop get_error_hint []) with EmptyString.
    rewrite string_app_nil_r. exact (drop_last_newline _).
  - rewrite <- string_app_assoc. rewrite drop_last_app.
    + rewrite IH. rewrite string_app_assoc. done.
    + rewrite hint_loop_cons. unfold hint_line. discriminate.
Qed.

(** Both hooks of a placeholder raise, whatever the context, the parsed
    options and the arguments, and leave the store as it is. *)
Lemma raise_error_spec {A} (ctx : Context) (w : World) (nas : list Param) :
  not_attached_options w !! cb_id (cmd_callback (command ctx)) = Some nas →
  raise_error get_error_hint (A := A) ctx w =
    (Raise (TypeError
              (missing_group_message (cmd_name (command ctx))
                 (join newline (hint_line get_error_hint <$> (decls_of <$> reverse nas))))), w).
Proof.
  intros Hna. unfold raise_error, not_attached_getitem. unfold_M. rewrite Hna.
  by rewrite drop_last_hint_loop.
Qed.

End FrameworkFacts.

Lemma reachable_missing_group_world : reachable missing_group_world.
Proof.
  exact (reach_click_option _ ["--hello1"] cli
           (reach_optgroup_option _ ["--foo"] [] cli
              (reach_optgroup_option _ ["--bar"] [] cli
                 (reach_click_option _ ["--hello2"] cli reach_empty)))).
Qed.

(** C2, on the command of [test_missing_group_decl_first_api]:
    [--hello1], the grouped options [--foo] and [--bar], [--hello2], and
    no group decorator.  The two placeholders are registered under
    made-up names, so that the parser of the command knows [--hello1] and
    [--hello2] but neither [--foo] nor [--bar].  When the help is
    requested, and when the command is invoked with no argument or with
    [--hello1 hello1], the first time as well as any later time, the
    [TypeError] is raised that starts "Missing option group decorator in
    'cli' command for the following grouped options:" and lists [--foo]
    and [--bar] in the order of declaration.  When the command is invoked
    with [--foo foo], the parser rejects the arguments before any hook
    runs: the outcome is its usage error, exit status 2, and not the
    [TypeError]. *)
Theorem orphaned_options_error :
  let run :=
    session quoted_hint first_dest example_fake_name long_option_parser
            example_extra_message missing_group_cli in
  let missing_group_error :=
    TypeError
      ("Missing option group decorator in 'cli' command for the following grouped options:"
       +:+ newline +:+ "  " +:+ dquote +:+ "--foo" +:+ dquote
       +:+ newline +:+ "  " +:+ dquote +:+ "--bar" +:+ dquote
       +:+ newline) in
  reachable missing_group_world ∧
  params_of missing_group_world cli =
    [ClickOption ["--hello2"]; NotAttachedOption 0 ["--bar"];
     NotAttachedOption 1 ["--foo"]; ClickOption ["--hello1"]] ∧
  registered_decls example_fake_name <$> cmd_params missing_group_cli =
    [["--hello1"]; ["--fake-xx"]; ["--fake-x"]; ["--hello2"]] ∧
  run [Help; Invoke []; Invoke ["--hello1"; "hello1"]; Help; Invoke []] missing_group_world =
    (replicate 5 (Raise missing_group_error), missing_group_world) ∧
  run [Invoke ["--foo"; "foo"]] missing_group_world =
    ([Raise (UsageError "No such option: --foo")], missing_group_world) ∧
  exit_status (Raise (UsageError "No such option: --foo")) = 2 ∧
  Raise (UsageError "No such option: --foo") ≠ Raise (A := unit) missing_group_error.
Proof.
  intros run missing_group_error.
  split; [exact reachable_missing_group_world|].
  split; [reflexivity|]. split; [reflexivity|].
  split; [|split; [|split; [reflexivity|discriminate]]].
  - subst run missing_group_error. vm_compute. reflexivity.
  - subst run. vm_compute. reflexivity.
Qed.

(** ** Constraint policies *)

Section PolicyFacts.

Variable get_error_hint : list string → string.
Variable dest_name : list string → string.

Lemma present_true (values : Values) (m : Member) :
  present dest_name values m = true ↔ is_Some (values !! dest_name (m_decls m)).
Proof. unfold present. apply bool_decide_eq_true. Qed.

Lemma present_false (values : Values) (m : Member) :
  present dest_name values m = false ↔ values !! dest_name (m_decls m) = None.
Proof.
  unfold present. rewrite bool_decide_eq_false. by rewrite eq_None_not_Some.
Qed.

Lemma filter_nil_Forall {A} (P : A → Prop) `{!∀ x, Decision (P x)} (l : list A) :
  filter P l = [] ↔ Forall (λ x, ¬ P x) l.
Proof.
  induction l as [|x l IH]; [by split; [constructor|]|].
  rewrite filter_cons. destruct (decide (P x)) as [HP|HP].
  - split; [done|]. intros Hall. apply Forall_cons in Hall as [? _]. done.
  - rewrite IH. split; [by constructor|]. intros Hall. by apply Forall_cons in Hall as [_ ?].
Qed.

Lemma missing_options_nil (g : OptionGroup) (values : Values) :
  missing_options dest_name values g = [] ↔
  Forall (λ m, is_Some (values !! dest_name (m_decls m))) (g_options g).
Proof.
  unfold missing_options, declared_options. rewrite filter_nil_Forall, Forall_reverse.
  apply Forall_iff. intros m.
  rewrite <- present_true. by destruct (present dest_name values m).
Qed.

Lemma present_options_declared (g : OptionGroup) (values : Values) :
  present_options dest_name values g =
    filter (λ m, is_Some (values !! dest_name (m_decls m))) (declared_options g).
Proof. unfold present_options. apply list_filter_iff. intros m. apply present_true. Qed.

(** C4. A group with the require-all policy validates exactly when every
    member option has a value; otherwise the usage error has the message
    "Missing required options from <group>" followed by the absent member
    options, and only those, in the order in which the group declares
    its options, and the framework exits with status 2. *)
Theorem require_all_validation (g : OptionGroup) (values : Values) :
  cls_policy (g_class g) = RequireAll →
  (validate get_error_hint dest_name g values = Ok tt ↔
   Forall (λ m, is_Some (values !! dest_name (m_decls m))) (g_options g))
  ∧
  (validate get_error_hint dest_name g values ≠ Ok tt →
   validate get_error_hint dest_name g values =
     Raise (UsageError
              (usage_message get_error_hint
                 ("Missing required options from " +:+ group_display_name dest_name g)
                 (filter (λ m, present dest_name values m = false) (declared_options g)))) ∧
   (∀ m, m ∈ filter (λ m, present dest_name values m = false) (declared_options g) ↔
         m ∈ g_options g ∧ values !! dest_name (m_decls m) = None) ∧
   filter (λ m, present dest_name values m = false) (declared_options g)
     `sublist_of` declared_options g ∧
   exit_status (validate get_error_hint dest_name g values) = 2).
Proof.
  intros Hpol. rewrite <- missing_options_nil.
  unfold validate. rewrite Hpol. fold (missing_options dest_name values g).
  destruct (missing_options dest_name values g) as [|m ms] eqn:Hmiss.
  - split; [done|]. intros Hne. by destruct Hne.
  - split; [done|]. intros _. split; [done|]. split; [|split; [|done]].
    + intros m'. rewrite <- Hmiss. unfold missing_options, declared_options.
      rewrite list_elem_of_filter, present_false, elem_of_reverse. tauto.
    + rewrite <- Hmiss. apply sublist_filter.
Qed.

(** C5. A group with the mutually-exclusive policy validates exactly when
    at most one member option has a value; otherwise the usage error has
    the message "The given mutually exclusive options cannot be used at
    the same time" followed by the member options that have a value, and
    only those, in the order in which the group declares its options. *)
Theorem mutually_exclusive_validation (g : OptionGroup) (values : Values) :
  cls_policy (g_class g) = MutuallyExclusive →
  let given :=
    filter (λ m, is_Some (values !! dest_name (m_decls m))) (declared_options g) in
  (validate get_error_hint dest_name g values = Ok tt ↔ length given ≤ 1)
  ∧
  (validate get_error_hint dest_name g values ≠ Ok tt →
   validate get_error_hint dest_name g values =
     Raise (UsageError
              (usage_message get_error_hint
                 "The given mutually exclusive options cannot be used at the same time"
                 given)) ∧
   (∀ m, m ∈ given ↔ m ∈ g_options g ∧ is_Some (values !! dest_name (m_decls m))) ∧
   given `sublist_of` declared_options g).
Proof.
  intros Hpol given.
  pose proof (present_options_declared g values) as Hgiven. fold given in Hgiven.
  unfold validate. rewrite Hpol. unfold validate_mutually_exclusive. rewrite Hgiven.
  assert (∀ m, m ∈ given ↔ m ∈ g_options g ∧ is_Some (values !! dest_name (m_decls m)))
    as Hmem.
  { intros m. unfold given, declared_options.
    rewrite list_elem_of_filter, elem_of_reverse. tauto. }
  case_decide as Hle.
  - split; [done|]. intros Hne. by destruct Hne.
  - split; [split; [done|lia]|]. intros _. split; [done|]. split; [done|].
    apply sublist_filter.
Qed.

(** C6. A group with the required-mutually-exclusive policy validates
    exactly when one member option, and only one, has a value; with none,
    the usage error has the message "Missing one of the required mutually
    exclusive options" followed by all member options; with two or more,
    it is the error of the mutually-exclusive policy, followed by the
    member options that have a value.  The listings are in the order in
    which the group declares its options. *)
Theorem required_mutually_exclusive_validation (g : OptionGroup) (values : Values) :
  cls_policy (g_class g) = RequireMutuallyExclusive →
  let given :=
    filter (λ m, is_Some (values !! dest_name (m_decls m))) (declared_options g) in
  (validate get_error_hint dest_name g values = Ok tt ↔ length given = 1)
  ∧
  (length given = 0 →
   validate get_error_hint dest_name g values =
     Raise (UsageError
              (usage_message get_error_hint
                 "Missing one of the required mutually exclusive options"
                 (declared_options g))))
  ∧
  (2 ≤ length given →
   validate get_error_hint dest_name g values =
     Raise (UsageError
              (usage_message get_error_hint
                 "The given mutually exclusive options cannot be used at the same time"
                 given))).
Proof.
  intros Hpol given.
  pose proof (present_options_declared g values) as Hgiven. fold given in Hgiven.
  unfold validate. rewrite Hpol. unfold validate_mutually_exclusive. rewrite Hgiven.
  case_decide as Hle.
  - destruct given as [|m [|m' ms]]; simpl in *; [| |lia].
    + split; [split; [done|lia]|]. split; [done|lia].
    + split; [done|]. split; lia.
  - split; [split; [done|lia]|]. split; [lia|done].
Qed.

End PolicyFacts.

(** ** The statements on the inputs of the test suite *)

Lemma require_all_validation_witness :
  groups (policy_world required_all_class ["--foo"; "--bar"]) = [required_all_group] ∧
  cls_policy (g_class required_all_group) = RequireAll ∧
  validate quoted_hint first_dest required_all_group ∅ =
    Raise (UsageError ("Missing required options from (foo|bar):"
                       +:+ newline +:+ "  " +:+ dquote +:+ "--foo" +:+ dquote
                       +:+ newline +:+ "  " +:+ dquote +:+ "--bar" +:+ dquote)) ∧
  validate quoted_hint first_dest required_all_group only_foo =
    Raise (UsageError ("Missing required options from (foo|bar):" +:+ newline
                       +:+ "  " +:+ dquote +:+ "--bar" +:+ dquote)) ∧
  exit_status (validate quoted_hint first_dest required_all_group only_foo) = 2 ∧
  validate quoted_hint first_dest required_all_group foo_and_bar = Ok tt.
Proof.
  split; [reflexivity|]. split; [reflexivity|].
  pose proof (require_all_validation quoted_hint first_dest required_all_group) as H.
  split; [|split; [|split]].
  - destruct (H ∅) as [_ Hfail]; [reflexivity|].
    destruct Hfail as (Hmsg & _); [discriminate|]. exact Hmsg.
  - destruct (H only_foo) as [_ Hfail]; [reflexivity|].
    destruct Hfail as (Hmsg & _); [discriminate|]. exact Hmsg.
  - destruct (H only_foo) as [_ Hfail]; [reflexivity|].
    destruct Hfail as (_ & _ & _ & Hexit); [discriminate|]. exact Hexit.
  - apply (H foo_and_bar); [reflexivity|]. repeat constructor; by eexists.
Defined.

Lemma mutually_exclusive_validation_witness :
  groups (policy_world mutually_exclusive_class ["--foo"; "--bar"; "--spam"])
    = [mutually_exclusive_group] ∧
  cls_policy (g_class mutually_exclusive_group) = MutuallyExclusive ∧
  validate quoted_hint first_dest mutually_exclusive_group ∅ = Ok tt ∧
  validate quoted_hint first_dest mutually_exclusive_group only_foo = Ok tt ∧
  validate quoted_hint first_dest mutually_exclusive_group foo_and_spam =
    Raise (UsageError
             ("The given mutually exclusive options cannot be used at the same time:"
              +:+ newline +:+ "  " +:+ dquote +:+ "--foo" +:+ dquote
              +:+ newline +:+ "  " +:+ dquote +:+ "--spam" +:+ dquote)).
Proof.
  split; [reflexivity|]. split; [reflexivity|].
  pose proof (mutually_exclusive_validation quoted_hint first_dest mutually_exclusive_group)
    as H.
  split; [|split].
  - apply (H ∅); [reflexivity|]. vm_compute. lia.
  - apply (H only_foo); [reflexivity|]. vm_compute. lia.
  - destruct (H foo_and_spam) as [_ Hfail]; [reflexivity|].
    destruct Hfail as [Hmsg _]; [discriminate|]. exact Hmsg.
Defined.

Lemma required_mutually_exclusive_validation_witness :
  groups (policy_world required_mutually_exclusive_class ["--foo"; "--bar"; "--spam"])
    = [required_mutually_exclusive_group] ∧
  cls_policy (g_class required_mutually_exclusive_group) = RequireMutuallyExclusive ∧
  validate quoted_hint first_dest required_mutually_exclusive_group only_foo = Ok tt ∧
  validate quoted_hint first_dest required_mutually_exclusive_group ∅ =
    Raise (UsageError
             ("Missing one of the required mutually exclusive options:"
              +:+ newline +:+ "  " +:+ dquote +:+ "--foo" +:+ dquote
              +:+ newline +:+ "  " +:+ dquote +:+ "--bar" +:+ dquote
              +:+ newline +:+ "  " +:+ dquote +:+ "--spam" +:+ dquote)) ∧
  validate quoted_hint first_dest required_mutually_exclusive_group foo_and_spam =
    Raise (UsageError
             ("The given mutually exclusive options cannot be used at the same time:"
              +:+ newline +:+ "  " +:+ dquote +:+ "--foo" +:+ dquote
              +:+ newline +:+ "  " +:+ dquote +:+ "--spam" +:+ dquote)).
Proof.
  split; [reflexivity|]. split; [reflexivity|].
  pose proof (required_mutually_exclusive_validation quoted_hint first_dest
                required_mutually_exclusive_group) as H.
  split; [|split].
  - apply (H only_foo); reflexivity.
  - apply (H ∅); reflexivity.
  - apply (H foo_and_spam); [reflexivity|]. vm_compute. lia.
Defined.

(** The command of [test_required_all_option_group] end to end, with the
    stand-ins of the examples for the framework: the help is rendered;
    invoked with nothing, with [--foo foo] and with both options, the
    hooks of the grouped options give the verdict of the validation, and
    the exit statuses are those of the test. *)
Lemma required_all_end_to_end :
  let w := policy_world required_all_class ["--foo"; "--bar"] in
  let outcomes :=
    [Ok tt;
     validate quoted_hint first_dest required_all_group ∅;
     validate quoted_hint first_dest required_all_group only_foo;
     validate quoted_hint first_dest required_all_group foo_and_bar] in
  session quoted_hint first_dest example_fake_name long_option_parser example_extra_message
          required_all_cli
          [Help; Invoke []; Invoke ["--foo"; "foo"]; Invoke ["--foo"; "foo"; "--bar"; "bar"]] w
    = (outcomes, w) ∧
  exit_status <$> outcomes = [0; 2; 2; 0].
Proof. split; vm_compute; reflexivity. Qed.

(** * Further properties of the engine *)

(** ** The dictionaries move in step *)

Lemma placeholders_among_app (l1 l2 : list Param) :
  placeholders_among (l1 ++ l2) = placeholders_among l1 ++ placeholders_among l2.
Proof. apply filter_app. Qed.

Lemma placeholders_among_snoc_other (l : list Param) (p : Param) :
  is_not_attached p = false → placeholders_among (l ++ [p]) = placeholders_among l.
Proof.
  intros Hp. rewrite placeholders_among_app. unfold placeholders_among at 2.
  rewrite filter_cons_False by congruence. by rewrite filter_nil, app_nil_r.
Qed.

Lemma placeholders_among_snoc_marker (l : list Param) (p : Param) :
  is_not_attached p = true → placeholders_among (l ++ [p]) = placeholders_among l ++ [p].
Proof.
  intros Hp. rewrite placeholders_among_app. unfold placeholders_among at 2.
  by rewrite filter_cons_True.
Qed.

Lemma filter_not_attached_snoc_other (l : list Param) (p : Param) :
  is_not_attached p = false → filter_not_attached (l ++ [p]) = filter_not_attached l ++ [p].
Proof.
  intros Hp. rewrite filter_not_attached_app. unfold filter_not_attached at 2.
  by rewrite filter_cons_True.
Qed.

Lemma filter_not_attached_snoc_marker (l : list Param) (p : Param) :
  is_not_attached p = true → filter_not_attached (l ++ [p]) = filter_not_attached l.
Proof.
  intros Hp. rewrite filter_not_attached_app. unfold filter_not_attached at 2.
  rewrite filter_cons_False by congruence. by rewrite filter_nil, app_nil_r.
Qed.

Lemma placeholders_among_filter_not_attached (l : list Param) :
  placeholders_among (filter_not_attached l) = [].
Proof.
  induction l as [|p l IH]; [done|].
  unfold filter_not_attached in *. rewrite filter_cons.
  destruct (decide (is_not_attached p = false)) as [Hp|Hp]; [|done].
  unfold placeholders_among in *. rewrite filter_cons_False by congruence. done.
Qed.

Lemma filter_not_attached_id (l : list Param) :
  placeholders_among l = [] → filter_not_attached l = l.
Proof.
  induction l as [|p l IH]; [done|].
  unfold placeholders_among, filter_not_attached in *. rewrite !filter_cons.
  destruct (is_not_attached p) eqn:Hp.
  - rewrite decide_True by done. discriminate.
  - rewrite decide_False by congruence. rewrite decide_True by done.
    intros Hl. by rewrite IH.
Qed.

(** Removing the placeholders listed for a function, when they are the
    placeholders among its parameters, leaves the other parameters. *)
Lemma remove_all_skip (nas rest : list Param) (p : Param) :
  is_not_attached p = false →
  Forall (λ q, is_not_attached q = true) nas →
  remove_all nas (p :: rest) = (p ::.) <$> remove_all nas rest.
Proof.
  intros Hp. revert rest. induction nas as [|opt nas IH]; intros rest Hall; [done|].
  apply Forall_cons in Hall as [Hopt Hall]. simpl.
  rewrite decide_False by congruence.
  destruct (list_remove opt rest) as [r|]; simpl; [by apply IH|done].
Qed.

Lemma remove_all_exact (params : list Param) :
  remove_all (placeholders_among params) params = Some (filter_not_attached params).
Proof.
  induction params as [|p rest IH]; [done|].
  unfold placeholders_among, filter_not_attached in *. rewrite !filter_cons.
  destruct (is_not_attached p) eqn:Hp.
  - rewrite decide_True by done. rewrite decide_False by congruence.
    simpl. by rewrite decide_True.
  - rewrite decide_False by congruence. rewrite decide_True by done.
    rewrite remove_all_skip; [by rewrite IH|done|].
    apply Forall_forall. intros q Hq. by apply list_elem_of_filter in Hq as [? _].
Qed.

Lemma in_step_click_option (w : World) (decls : list string) (func : Callback) :
  in_step w → in_step (snd (click_option decls func w)).
Proof.
  intros Hinv id. specialize (Hinv id). rewrite click_option_spec. simpl in *.
  destruct (decide (id = cb_id func)) as [->|Hid]; [|by rewrite lookup_insert_ne].
  rewrite lookup_insert_eq. simpl. unfold params_of.
  destruct Hinv as (Hp & Hd & c & Hc & Hall).
  rewrite placeholders_among_snoc_other, filter_not_attached_snoc_other by done.
  split; [done|]. split; [done|]. exists c. split; [|done].
  rewrite length_app. simpl. lia.
Qed.

Lemma in_step_optgroup_option (w : World) (decls : list string) (oattrs : Dict)
    (func : Callback) :
  in_step w → in_step (snd (optgroup_option decls oattrs func w)).
Proof.
  intros Hinv.
  assert (∀ item, last (stack_of w func) = Some item →
            param_count item < length (filter_not_attached (params_of w func)) →
            in_step (snd (optgroup_option decls oattrs func w))) as Hmix.
  { intros item Hlast Hlt.
    by destruct (optgroup_option_mixing w func decls oattrs item Hlast Hlt) as (p & _ & ->). }
  destruct (last (stack_of w func)) as [item|] eqn:Hlast.
  - destruct (decide (param_count item < length (filter_not_attached (params_of w func))))
      as [Hlt|Hge]; [by eapply Hmix|].
    rewrite optgroup_option_ok;
      [|intros item' Hl; rewrite Hlast in Hl; injection Hl as <-; lia].
    intros id. specialize (Hinv id). simpl in *.
    destruct (decide (id = cb_id func)) as [->|Hid]; [|by rewrite !lookup_insert_ne].
    rewrite !lookup_insert_eq. simpl.
    fold (params_of w func) (stack_of w func) (placeholders_of w func) in Hinv.
    destruct Hinv as (Hp & Hd & c & Hc & Hall).
    rewrite placeholders_among_snoc_marker, filter_not_attached_snoc_marker by done.
    rewrite Hp, !fmap_app, Hd. split; [done|]. split; [done|].
    assert (param_count item = c) as Hitem.
    { apply last_Some_elem_of in Hlast. by eapply Forall_forall in Hall. }
    exists c. split; [done|]. apply Forall_app. split; [done|].
    repeat constructor. simpl. lia.
  - rewrite optgroup_option_ok; [|by rewrite Hlast].
    intros id. specialize (Hinv id). simpl in *.
    destruct (decide (id = cb_id func)) as [->|Hid]; [|by rewrite !lookup_insert_ne].
    rewrite !lookup_insert_eq. simpl.
    fold (params_of w func) (stack_of w func) (placeholders_of w func) in Hinv.
    destruct Hinv as (Hp & Hd & _).
    rewrite placeholders_among_snoc_marker, filter_not_attached_snoc_marker by done.
    rewrite Hp, !fmap_app, Hd. split; [done|]. split; [done|].
    apply last_None in Hlast. rewrite Hlast. simpl.
    eexists. split; [reflexivity|]. by repeat constructor.
Qed.

Lemma in_step_OptionGroup_option (w : World) (gid : nat) (decls : list string)
    (oattrs : Dict) (func : Callback) :
  in_step w → in_step (snd (OptionGroup_option gid decls oattrs func w)).
Proof.
  intros Hinv. unfold OptionGroup_option, param_memo. unfold_M.
  destruct (groups w !! gid) as [g|]; [|done].
  destruct (cls_option_error _ _ _); [done|]. simpl.
  intros id. specialize (Hinv id). simpl in *.
  destruct (decide (id = cb_id func)) as [->|Hid]; [|by rewrite lookup_insert_ne].
  rewrite lookup_insert_eq. simpl.
  destruct Hinv as (Hp & Hd & c & Hc & Hall).
  rewrite placeholders_among_snoc_other, filter_not_attached_snoc_other by done.
  split; [done|]. split; [done|]. exists c. split; [|done].
  rewrite length_app. simpl. lia.
Qed.

Lemma in_step_construct_group (w : World) (cls : PyClass) (name : option string)
    (kwargs : Dict) :
  in_step w → in_step (snd (construct_group cls name kwargs w)).
Proof.
  intros Hinv. unfold construct_group. by destruct (cls_init_error _ _ _).
Qed.

(** The stages of the group decorator after the removals keep the
    placeholders among the parameters of the function. *)
Lemma keeps_placeholders_ret {A} (func : Callback) (a : A) : keeps_placeholders func (mret a).
Proof. by intros w. Qed.

Lemma keeps_placeholders_raise {A} (func : Callback) (e : Exn) :
  keeps_placeholders func (raise (A := A) e).
Proof. by intros w. Qed.

Lemma keeps_placeholders_bind {A B} (func : Callback) (m : M A) (f : A → M B) :
  keeps_placeholders func m → (∀ a, keeps_placeholders func (f a)) →
  keeps_placeholders func (m ≫= f).
Proof.
  intros Hm Hf w. unfold mbind, M_bind. specialize (Hm w).
  destruct (m w) as [[a|e] w']; simpl in *; [|done].
  by rewrite Hf.
Qed.

Lemma keeps_placeholders_check (func callback : Callback)
    (stack : list OptionStackItem) (params : list Param) :
  keeps_placeholders func (check_mixing_decorators callback stack params).
Proof.
  unfold check_mixing_decorators. destruct (last stack); [|apply keeps_placeholders_ret].
  case_decide; [|apply keeps_placeholders_ret].
  destruct (last params); apply keeps_placeholders_raise.
Qed.

Lemma keeps_placeholders_construct_group (func : Callback) (cls : PyClass)
    (name : option string) (kwargs : Dict) :
  keeps_placeholders func (construct_group cls name kwargs).
Proof.
  unfold construct_group. destruct (cls_init_error _ _ _); [apply keeps_placeholders_raise|].
  by intros w.
Qed.

Lemma keeps_placeholders_OptionGroup_option (gid : nat) (decls : list string) (oattrs : Dict)
    (func : Callback) :
  keeps_placeholders func (OptionGroup_option gid decls oattrs func).
Proof.
  intros w. unfold OptionGroup_option, param_memo. unfold_M.
  destruct (groups w !! gid) as [g|]; [|done].
  destruct (cls_option_error _ _ _); [done|]. simpl.
  unfold params_of. simpl. rewrite lookup_insert_eq. simpl.
  by rewrite placeholders_among_snoc_other.
Qed.

Lemma keeps_placeholders_attach_loop (gid : nat) (stack : list OptionStackItem)
    (func : Callback) :
  keeps_placeholders func
    (for_rebind (λ item, OptionGroup_option gid (param_decls item) (attrs item)) stack func).
Proof.
  induction stack as [|item rest IH]; [apply keeps_placeholders_ret|].
  intros w. simpl. unfold mbind, M_bind.
  pose proof (keeps_placeholders_OptionGroup_option gid (param_decls item) (attrs item)
                func w) as Hstep.
  destruct (OptionGroup_option gid (param_decls item) (attrs item) func w)
    as [[func'|e] w'] eqn:Hrun; [|done].
  apply OptionGroup_option_returns in Hrun as ->. simpl in Hstep.
  by rewrite IH.
Qed.

(** The part of the group decorator that follows the two pops and the
    removals. *)
Lemma group_stages_untouched (func : Callback) (name help : option string) (cls : PyClass)
    (kwargs : Dict) (stack : list OptionStackItem) (params : list Param) :
  frames (cb_id func)
    (check_mixing_decorators func stack params ;;
     option_group ← construct_group cls name (dict_set "help" (help_val help) kwargs);
     for_rebind (λ item, OptionGroup_option option_group (param_decls item) (attrs item))
                stack func) ∧
  keeps_placeholders func
    (check_mixing_decorators func stack params ;;
     option_group ← construct_group cls name (dict_set "help" (help_val help) kwargs);
     for_rebind (λ item, OptionGroup_option option_group (param_decls item) (attrs item))
                stack func).
Proof.
  split.
  - apply frames_bind; [apply frames_check_mixing_decorators|]. intros _.
    apply frames_bind; [apply frames_construct_group|]. intros gid.
    apply frames_attach_loop.
  - apply keeps_placeholders_bind; [apply keeps_placeholders_check|]. intros _.
    apply keeps_placeholders_bind; [apply keeps_placeholders_construct_group|]. intros gid.
    apply keeps_placeholders_attach_loop.
Qed.

Lemma group_decorator_pending_exact (w : World) (func : Callback) (name help : option string)
    (cls : PyClass) (kwargs : Dict) (stack : list OptionStackItem) :
  consistent w → in_step w →
  decorating_state w !! cb_id func = Some stack →
  not_attached_options w !! cb_id func = Some (placeholders_of w func) ∧
  group_decorator name cls help kwargs func w =
    (check_mixing_decorators func stack (filter_not_attached (filter_not_attached (params_of w func))) ;;
     option_group ← construct_group cls name (dict_set "help" (help_val help) kwargs);
     for_rebind (λ item, OptionGroup_option option_group (param_decls item) (attrs item))
                stack func)
      (drained w func (placeholders_of w func) (filter_not_attached (params_of w func))).
Proof.
  intros Hcons Hstep Hst.
  pose proof (Hcons (cb_id func)) as Hc. rewrite Hst in Hc.
  destruct (not_attached_options w !! cb_id func) as [nas|] eqn:Hna; [|done].
  assert (placeholders_of w func = nas) as Hnas by (unfold placeholders_of; by rewrite Hna).
  destruct (Hstep (cb_id func)) as (Hp & _). simpl in Hp.
  fold (params_of w func) (placeholders_of w func) in Hp.
  rewrite Hnas in *. split; [done|].
  apply group_decorator_pending; [done|done|].
  rewrite <- Hp. apply remove_all_exact.
Qed.

Lemma in_step_drained (w : World) (func : Callback) :
  in_step w →
  in_step (drained w func (placeholders_of w func) (filter_not_attached (params_of w func))).
Proof.
  intros Hinv id. specialize (Hinv id).
  set (w' := drained _ _ _ _).
  assert (decorating_state w' = delete (cb_id func) (decorating_state w)) as Hd
      by (unfold w', drained; by destruct (placeholders_of w func)).
  assert (not_attached_options w' = delete (cb_id func) (not_attached_options w)) as Hn
      by (unfold w', drained; by destruct (placeholders_of w func)).
  simpl. rewrite Hd, Hn.
  destruct (decide (id = cb_id func)) as [->|Hid].
  - rewrite !lookup_delete_eq. simpl.
    assert (placeholders_among (default [] (click_params w' !! cb_id func)) = []) as ->.
    { destruct Hinv as (Hp & _). simpl in Hp.
      fold (params_of w func) (placeholders_of w func) in Hp.
      unfold w', drained. destruct (placeholders_of w func) eqn:Hnas; simpl.
      - exact Hp.
      - rewrite lookup_insert_eq. simpl. apply placeholders_among_filter_not_attached. }
    split; [done|]. split; [done|]. exists 0. split; [lia|constructor].
  - rewrite !lookup_delete_ne by done.
    assert (click_params w' !! id = click_params w !! id) as ->; [|done].
    unfold w', drained. destruct (placeholders_of w func); simpl; [done|].
    by rewrite lookup_insert_ne.
Qed.

Lemma in_step_untouched (func : Callback) (w w' : World) :
  in_step w →
  decorating_state w !! cb_id func = None →
  not_attached_options w !! cb_id func = None →
  untouched (cb_id func) w w' →
  placeholders_among (params_of w' func) = placeholders_among (params_of w func) →
  in_step w'.
Proof.
  intros Hinv Hd0 Hn0 (Hd & Hn & Hp) Hpl id. specialize (Hinv id). simpl in *.
  rewrite Hd, Hn.
  destruct (decide (id = cb_id func)) as [->|Hid]; [|by rewrite (Hp id Hid)].
  rewrite Hd0, Hn0 in *. simpl in *. destruct Hinv as (Hpw & _).
  fold (params_of w' func). fold (params_of w func) in Hpw. rewrite Hpl, Hpw.
  split; [done|]. split; [done|]. exists 0. split; [lia|constructor].
Qed.

Lemma drained_lookups (w : World) (func : Callback) (nas params' : list Param) :
  decorating_state (drained w func nas params') !! cb_id func = None ∧
  not_attached_options (drained w func nas params') !! cb_id func = None.
Proof. unfold drained. destruct nas; simpl; by rewrite !lookup_delete_eq. Qed.

Lemma in_step_group_decorator (w : World) (func : Callback) (name help : option string)
    (cls : PyClass) (kwargs : Dict) :
  consistent w → in_step w → in_step (snd (group_decorator name cls help kwargs func w)).
Proof.
  intros Hcons Hinv.
  destruct (decorating_state w !! cb_id func) as [stack|] eqn:Hst.
  - destruct (group_decorator_pending_exact w func name help cls kwargs stack Hcons Hinv Hst)
      as [_ ->].
    set (w1 := drained _ _ _ _).
    destruct (group_stages_untouched func name help cls kwargs stack
                (filter_not_attached (filter_not_attached (params_of w func))))
      as [Hframe Hkeep].
    destruct (drained_lookups w func (placeholders_of w func)
                (filter_not_attached (params_of w func))) as [Hd1 Hn1].
    eapply (in_step_untouched func w1); [by apply in_step_drained|done|done|apply Hframe|apply Hkeep].
  - rewrite group_decorator_empty by done. done.
Qed.

(** Every store that decorating can produce has its dictionaries in
    step. *)
Lemma reachable_in_step (w : World) : reachable w → in_step w.
Proof.
  induction 1 as [|w decls func _ IH|w decls oattrs func _ IH
                  |w name cls help kwargs func Hreach IH|w cls name kwargs _ IH
                  |w gid decls oattrs func _ IH].
  - intros id. simpl. rewrite !lookup_empty. simpl.
    split; [done|]. split; [done|]. exists 0. split; [lia|constructor].
  - by apply in_step_click_option.
  - by apply in_step_optgroup_option.
  - apply in_step_group_decorator; [by apply reachable_consistent|done].
  - by apply in_step_construct_group.
  - by apply in_step_OptionGroup_option.
Qed.

(** Whatever the group decorator does on a store that decorating can
    produce, it leaves no bookkeeping for the callback and no placeholder
    among its parameters. *)
Lemma group_decorator_leaves_nothing (w : World) (func : Callback) (name help : option string)
    (cls : PyClass) (kwargs : Dict) :
  reachable w →
  let w' := snd (group_decorator name cls help kwargs func w) in
  decorating_state w' !! cb_id func = None ∧
  not_attached_options w' !! cb_id func = None ∧
  placeholders_among (params_of w' func) = [].
Proof.
  intros Hreach w'.
  assert (reachable w') as Hreach' by by apply reach_group_decorator.
  assert (decorating_state w' !! cb_id func = None ∧
          not_attached_options w' !! cb_id func = None) as [Hd Hn].
  { pose proof (reachable_consistent w Hreach) as Hcons.
    pose proof (reachable_in_step w Hreach) as Hinv. subst w'.
    destruct (decorating_state w !! cb_id func) as [stack|] eqn:Hst.
    - destruct (group_decorator_pending_exact w func name help cls kwargs stack Hcons Hinv Hst)
        as [_ ->].
      destruct (group_stages_untouched func name help cls kwargs stack
                  (filter_not_attached (filter_not_attached (params_of w func))))
        as [Hframe _].
      destruct (Hframe (drained w func (placeholders_of w func)
                          (filter_not_attached (params_of w func)))) as (-> & -> & _).
      apply drained_lookups.
    - rewrite group_decorator_empty by done. simpl. split; [done|].
      specialize (Hcons (cb_id func)). rewrite Hst in Hcons.
      by destruct (not_attached_options w !! cb_id func). }
  split; [done|]. split; [done|].
  destruct (reachable_in_step w' Hreach' (cb_id func)) as (Hp & _). simpl in Hp.
  rewrite Hn in Hp. exact Hp.
Qed.

Lemma reachable_grouped_world : reachable grouped_world.
Proof.
  exact (reach_group_decorator _ None OptionGroup_class None [] cli
           (reach_optgroup_option _ ["--foo"] [] cli
              (reach_optgroup_option _ ["--bar"] [] cli reach_empty))).
Qed.

Lemma reachable_fire_click_options (foreign : list (list string)) (func : Callback)
    (w : World) :
  reachable w → reachable (snd (fire (click_option <$> foreign) func w)).
Proof.
  revert w. induction foreign as [|decls rest IH]; intros w Hreach; [done|].
  unfold fire in *. simpl. unfold mbind, M_bind.
  pose proof (reach_click_option w decls func Hreach) as Hstep.
  rewrite click_option_spec in *. by apply IH.
Qed.

(** X1. In every store that decorating can produce, the two dictionaries
    of [optgroup] have the same keys, no pending stack is empty, the
    placeholders among the parameters recorded for a function are the
    ones listed for its callback, in the same order, and they carry the
    declarations of the pending stack, entry by entry. *)
Theorem bookkeeping_in_step (w : World) (func : Callback) :
  reachable w →
  (decorating_state w !! cb_id func = None ↔ not_attached_options w !! cb_id func = None) ∧
  decorating_state w !! cb_id func ≠ Some [] ∧
  placeholders_among (params_of w func) = placeholders_of w func ∧
  (decls_of <$> placeholders_of w func) = param_decls <$> stack_of w func.
Proof.
  intros Hreach.
  pose proof (reachable_consistent w Hreach (cb_id func)) as Hcons.
  destruct (reachable_in_step w Hreach (cb_id func)) as (Hp & Hd & _). simpl in Hp, Hd.
  split; [|split; [|split; [exact Hp|exact Hd]]].
  - destruct (decorating_state w !! cb_id func), (not_attached_options w !! cb_id func);
      by try done.
  - intros Hst. rewrite Hst in Hcons.
    destruct (not_attached_options w !! cb_id func); [|done]. by destruct Hcons as [? _].
Qed.

(** A grouped-option decorator either returns, with the store that the
    three appends leave, or raises and leaves the store as it was. *)
Lemma option_decorator_step (w : World) (func : Callback) (decls : list string)
    (oattrs : Dict) :
  optgroup_option decls oattrs func w =
    (Ok func,
     {| click_params :=
          <[cb_id func := params_of w func ++ [NotAttachedOption (next_oid w) decls]]>
            (click_params w);
        decorating_state :=
          <[cb_id func := stack_of w func ++
              [{| param_decls := decls; attrs := oattrs;
                  param_count := length (filter_not_attached (params_of w func)) |}]]>
            (decorating_state w);
        not_attached_options :=
          <[cb_id func := placeholders_of w func ++ [NotAttachedOption (next_oid w) decls]]>
            (not_attached_options w);
        groups := groups w; warned := warned w; next_oid := S (next_oid w) |})
  ∨
  ∃ wrong_option,
    optgroup_option decls oattrs func w =
      (Raise (TypeError (mixing_decorators_message wrong_option func)), w).
Proof.
  destruct (last (stack_of w func)) as [item|] eqn:Hlast.
  - destruct (decide (param_count item < length (filter_not_attached (params_of w func))))
      as [Hlt|Hge].
    + right. destruct (optgroup_option_mixing w func decls oattrs item Hlast Hlt)
        as (p & _ & Hraise). by exists p.
    + left. apply optgroup_option_ok. intros item' Hl. rewrite Hlast in Hl.
      injection Hl as <-. lia.
  - left. apply optgroup_option_ok. by rewrite Hlast.
Qed.

Lemma fire_cons (d : Callback → M Callback) (ds : list (Callback → M Callback))
    (func : Callback) (w : World) :
  fire (d :: ds) func w =
    match d func w with
    | (Ok func', w') => fire ds func' w'
    | (Raise e, w') => (Raise e, w')
    end.
Proof. reflexivity. Qed.

Lemma bookkeeping_in_step_witness :
  reachable mixed_world ∧
  placeholders_among (params_of mixed_world cli) = [NotAttachedOption 0 ["--bar"]] ∧
  placeholders_of mixed_world cli = [NotAttachedOption 0 ["--bar"]] ∧
  param_decls <$> stack_of mixed_world cli = [["--bar"]].
Proof.
  split; [exact reachable_mixed_world|].
  destruct (bookkeeping_in_step mixed_world cli reachable_mixed_world)
    as (_ & _ & Hp & Hd).
  split; [reflexivity|]. split; [by rewrite <- Hp|]. by rewrite <- Hd.
Defined.

(** X2. In every store that decorating can produce, the entries of a
    pending stack all record one count, and the number of recorded
    parameters that are not placeholders is at least that count; so the
    next grouped-option decorator is accepted exactly when that number
    still equals the recorded count, that is when no other parameter was
    recorded since the pending options. *)
Theorem pending_counts_agree (w : World) (func : Callback) (item : OptionStackItem) :
  reachable w →
  last (stack_of w func) = Some item →
  Forall (λ item', param_count item' = param_count item) (stack_of w func) ∧
  param_count item ≤ length (filter_not_attached (params_of w func)) ∧
  ∀ decls oattrs,
    (∃ w', optgroup_option decls oattrs func w = (Ok func, w')) ↔
    length (filter_not_attached (params_of w func)) = param_count item.
Proof.
  intros Hreach Hlast.
  destruct (reachable_in_step w Hreach (cb_id func)) as (_ & _ & c & Hc & Hall).
  simpl in Hc, Hall. fold (params_of w func) in Hc. fold (stack_of w func) in Hall.
  assert (param_count item = c) as Hitem.
  { apply last_Some_elem_of in Hlast. by eapply Forall_forall in Hall. }
  split; [by rewrite Hitem|]. split; [lia|].
  intros decls oattrs. split.
  - intros [w' Hrun].
    destruct (decide (param_count item < length (filter_not_attached (params_of w func))))
      as [Hlt|Hge]; [|lia].
    destruct (optgroup_option_mixing w func decls oattrs item Hlast Hlt) as (p & _ & Hraise).
    congruence.
  - intros Heq. eexists. apply optgroup_option_ok.
    intros item' Hl. rewrite Hlast in Hl. injection Hl as <-. lia.
Qed.

Lemma pending_counts_agree_witness :
  reachable mixed_world ∧
  last (stack_of mixed_world cli)
    = Some {| param_decls := ["--bar"]; attrs := []; param_count := 0 |} ∧
  length (filter_not_attached (params_of mixed_world cli)) = 1 ∧
  ¬ ∃ w', optgroup_option ["--foo"] [] cli mixed_world = (Ok cli, w').
Proof.
  split; [exact reachable_mixed_world|]. split; [reflexivity|]. split; [reflexivity|].
  destruct (pending_counts_agree mixed_world cli
              {| param_decls := ["--bar"]; attrs := []; param_count := 0 |}
              reachable_mixed_world eq_refl) as (_ & _ & Hiff).
  intros Hok. apply Hiff in Hok. vm_compute in Hok. discriminate.
Defined.

(** X3. A grouped-option decorator does all or nothing, in any store:
    either it returns the function, with one more entry on the pending
    stack of its callback and one more placeholder, the same object, at
    the end of the recorded parameters and of the listed placeholders; or
    it raises the mis-ordering [TypeError] and leaves the store as it
    was.  It raises nothing else. *)
Theorem option_decorator_all_or_nothing (w : World) (func : Callback)
    (decls : list string) (oattrs : Dict) :
  (∃ w',
     optgroup_option decls oattrs func w = (Ok func, w') ∧
     stack_of w' func =
       stack_of w func ++ [{| param_decls := decls; attrs := oattrs;
                              param_count := length (filter_not_attached (params_of w func)) |}] ∧
     params_of w' func = params_of w func ++ [NotAttachedOption (next_oid w) decls] ∧
     placeholders_of w' func = placeholders_of w func ++ [NotAttachedOption (next_oid w) decls] ∧
     groups w' = groups w ∧ warned w' = warned w)
  ∨
  (∃ wrong_option,
     last (filter_not_attached (params_of w func)) = Some wrong_option ∧
     optgroup_option decls oattrs func w =
       (Raise (TypeError (mixing_decorators_message wrong_option func)), w)).
Proof.
  assert ((∀ item, last (stack_of w func) = Some item →
             length (filter_not_attached (params_of w func)) ≤ param_count item) ∨
          (∃ item, last (stack_of w func) = Some item ∧
             param_count item < length (filter_not_attached (params_of w func)))) as [Hle|Hlt].
  { destruct (last (stack_of w func)) as [item|]; [|by left].
    destruct (decide (param_count item < length (filter_not_attached (params_of w func)))).
    - right. by exists item.
    - left. intros ? [= <-]. lia. }
  - left. rewrite optgroup_option_ok by done.
    set (w' := Build_World _ _ _ _ _ _).
    exists w'. split; [done|].
    repeat split;
      [unfold stack_of at 1|unfold params_of at 1|unfold placeholders_of at 1];
      subst w'; simpl; by rewrite lookup_insert_eq.
  - right. destruct Hlt as (item & Hlast & Hlt).
    by apply (optgroup_option_mixing w func decls oattrs item).
Qed.

(** X4. Grouped-option decorators written one under the other are all
    accepted when the first to fire is: placeholders are not counted, so
    every entry they push records the same count, and the parameters
    that are not placeholders stay as they were. *)
Theorem consecutive_options_accepted (w : World) (func : Callback) (visible : list Decl) :
  (∀ item, last (stack_of w func) = Some item →
           length (filter_not_attached (params_of w func)) ≤ param_count item) →
  ∃ w',
    decorate (option_decorator <$> visible) func w = (Ok func, w') ∧
    stack_of w' func =
      stack_of w func
      ++ (item_of (length (filter_not_attached (params_of w func))) <$> reverse visible) ∧
    params_of w' func = params_of w func ++ markers (next_oid w) (reverse visible) ∧
    placeholders_of w' func = placeholders_of w func ++ markers (next_oid w) (reverse visible) ∧
    filter_not_attached (params_of w' func) = filter_not_attached (params_of w func).
Proof.
  intros Hle.
  destruct (fire_option_decorators (reverse visible) func w Hle)
    as (w' & Hrun & Hs & Hn & Hp & _).
  exists w'. unfold decorate. rewrite <- fmap_reverse. split; [done|].
  split; [done|]. split; [done|]. split; [done|].
  by rewrite Hp, filter_not_attached_app, filter_not_attached_markers, app_nil_r.
Qed.

Lemma consecutive_options_accepted_witness :
  ∃ w',
    decorate (option_decorator <$> foo_bar) cli hello2_world = (Ok cli, w') ∧
    stack_of w' cli = [{| param_decls := ["--bar"]; attrs := []; param_count := 1 |};
                       {| param_decls := ["--foo"]; attrs := []; param_count := 1 |}] ∧
    filter_not_attached (params_of w' cli) = [ClickOption ["--hello2"]].
Proof.
  destruct (consecutive_options_accepted hello2_world cli foo_bar)
    as (w' & Hrun & Hs & _ & _ & Hf); [intros item; discriminate|].
  exists w'. split; [exact Hrun|]. split; [exact Hs|exact Hf].
Defined.

(** X5. A foreign option decorator between two grouped-option decorators,
    or between the last grouped-option decorator and the group decorator,
    is always detected: after an accepted grouped option and then one or
    more foreign options, the next grouped-option decorator and the group
    decorator both raise the mis-ordering [TypeError], which names the
    declarations of the foreign option that fired last. *)
Theorem interleaved_foreign_option_detected (w : World) (func : Callback)
    (d1 d2 : Decl) (foreign : list (list string)) (f : list string) :
  reachable w →
  (∀ item, last (stack_of w func) = Some item →
           length (filter_not_attached (params_of w func)) ≤ param_count item) →
  ∃ w1 w2,
    option_decorator d1 func w = (Ok func, w1) ∧
    fire (click_option <$> (foreign ++ [f])) func w1 = (Ok func, w2) ∧
    option_decorator d2 func w2 =
      (Raise (TypeError (mixing_decorators_message (ClickOption f) func)), w2) ∧
    ∀ name cls help kwargs,
      fst (group_decorator name cls help kwargs func w2) =
        Raise (TypeError (mixing_decorators_message (ClickOption f) func)).
Proof.
  intros Hreach Hle.
  pose proof (reach_optgroup_option w (fst d1) (snd d1) func Hreach) as Hreach1.
  pose proof (optgroup_option_ok w func (fst d1) (snd d1) Hle) as Hrun1.
  set (n := length (filter_not_attached (params_of w func))) in *.
  rewrite Hrun1 in Hreach1. simpl in Hreach1.
  set (w1 := Build_World _ _ _ _ _ _) in *.
  assert (params_of w1 func = params_of w func ++ [NotAttachedOption (next_oid w) (fst d1)])
    as Hp1 by (unfold params_of; subst w1; simpl; by rewrite lookup_insert_eq).
  assert (stack_of w1 func = stack_of w func ++ [item_of n d1])
    as Hs1 by (unfold stack_of; subst w1; simpl; by rewrite lookup_insert_eq).
  destruct (fire_click_options (foreign ++ [f]) func w1) as (w2 & Hrun2 & Hp2 & Hd2 & _).
  pose proof (reachable_fire_click_options (foreign ++ [f]) func w1 Hreach1) as Hreach2.
  rewrite Hrun2 in Hreach2. simpl in Hreach2.
  assert (stack_of w2 func = stack_of w func ++ [item_of n d1]) as Hs2
      by (unfold stack_of in *; by rewrite Hd2).
  assert (filter_not_attached (params_of w2 func) =
            filter_not_attached (params_of w func) ++ (ClickOption <$> foreign)
            ++ [ClickOption f]) as Hf2.
  { rewrite Hp2, Hp1, filter_not_attached_app, filter_not_attached_foreign.
    rewrite filter_not_attached_snoc_marker by done. by rewrite fmap_app. }
  assert (last (stack_of w2 func) = Some (item_of n d1)) as Hlast2
      by (rewrite Hs2; apply last_snoc).
  assert (param_count (item_of n d1) < length (filter_not_attached (params_of w2 func)))
    as Hlt.
  { rewrite Hf2, !length_app. simpl. fold n. lia. }
  assert (last (filter_not_attached (params_of w2 func)) = Some (ClickOption f)) as Hwrong.
  { rewrite Hf2, app_assoc. apply last_snoc. }
  exists w1, w2. split; [exact Hrun1|]. split; [exact Hrun2|]. split.
  - destruct (optgroup_option_mixing w2 func (fst d2) (snd d2) _ Hlast2 Hlt)
      as (p & Hp & Hraise).
    rewrite Hwrong in Hp. injection Hp as <-. exact Hraise.
  - intros name cls help kwargs.
    destruct (reachable_pending w2 func Hreach2) as [Hst2 Hrec2].
    { rewrite Hs2. by destruct (stack_of w func). }
    by eapply group_decorator_mixing.
Qed.

Lemma interleaved_foreign_option_detected_witness :
  reachable empty_world ∧
  ∃ w1 w2,
    option_decorator (["--bar"], []) cli empty_world = (Ok cli, w1) ∧
    fire (click_option <$> [["--hello"]]) cli w1 = (Ok cli, w2) ∧
    option_decorator (["--foo"], []) cli w2 =
      (Raise (TypeError "Check decorator position for ['--hello'] option in 'cli'"), w2) ∧
    fst (group_decorator (Some "Group 1") OptionGroup_class (Some "Group 1 description") []
           cli w2) =
      Raise (TypeError "Check decorator position for ['--hello'] option in 'cli'").
Proof.
  split; [exact reach_empty|].
  destruct (interleaved_foreign_option_detected empty_world cli (["--bar"], []) (["--foo"], [])
              [] ["--hello"] reach_empty)
    as (w1 & w2 & Hrun1 & Hrun2 & Hopt & Hgrp); [intros item; discriminate|].
  exists w1, w2. split; [exact Hrun1|]. split; [exact Hrun2|]. split; [exact Hopt|].
  apply Hgrp.
Defined.

(** X7. The group decorator consumes what is pending, whether it returns
    or raises: on a store that decorating can produce it leaves the
    callback without pending stack and without listed placeholders, and
    no placeholder among the parameters of the function; a group
    decorator applied next finds nothing pending, returns the function
    and only warns. *)
Theorem group_decorator_consumes_pending (w : World) (func : Callback)
    (name help name2 help2 : option string) (cls cls2 : PyClass) (kwargs kwargs2 : Dict) :
  reachable w →
  let w' := snd (group_decorator name cls help kwargs func w) in
  stack_of w' func = [] ∧
  placeholders_of w' func = [] ∧
  placeholders_among (params_of w' func) = [] ∧
  ∃ w'',
    group_decorator name2 cls2 help2 kwargs2 func w' = (Ok func, w'') ∧
    click_params w'' = click_params w' ∧ groups w'' = groups w' ∧
    message <$> warned w'' = (message <$> warned w') ++ [empty_group_message name2].
Proof.
  intros Hreach w'.
  destruct (group_decorator_leaves_nothing w func name help cls kwargs Hreach)
    as (Hd & Hn & Hp). fold w' in Hd, Hn, Hp.
  split; [unfold stack_of; by rewrite Hd|]. split; [unfold placeholders_of; by rewrite Hn|].
  split; [done|].
  eexists. split; [by apply group_decorator_empty|]. simpl.
  split; [done|]. split; [done|]. by rewrite fmap_app.
Qed.

Lemma group_decorator_consumes_pending_witness :
  reachable mixed_world ∧
  let w' := snd (group_decorator (Some "Group 1") OptionGroup_class None [] cli mixed_world) in
  fst (group_decorator (Some "Group 1") OptionGroup_class None [] cli mixed_world) =
    Raise (TypeError "Check decorator position for ['--hello'] option in 'cli'") ∧
  stack_of w' cli = [] ∧ placeholders_of w' cli = [] ∧
  params_of w' cli = [ClickOption ["--hello"]].
Proof.
  split; [exact reachable_mixed_world|].
  destruct (group_decorator_consumes_pending mixed_world cli (Some "Group 1") None None None
              OptionGroup_class OptionGroup_class [] [] reachable_mixed_world)
    as (Hs & Hn & _).
  split; [reflexivity|]. split; [exact Hs|]. split; [exact Hn|reflexivity].
Defined.

Section PlaceholderFacts.

Variable get_error_hint : list string → string.
Variable dest_name : list string → string.

(** X6. The two hooks of a placeholder raise in every store, whatever the
    context, the parsed options and the arguments: a [TypeError] whose
    message lists the declarations of the placeholders listed for the
    callback of the command, last listed first.  When nothing is listed
    for that callback, the dictionary gets an empty list for it and the
    message lists nothing; otherwise the store is left as it is. *)
Theorem placeholder_hooks_always_raise (oid : nat) (decls : list string) (ctx : Context)
    (opts : Values) (args : list string) (w : World) :
  let callback := cmd_callback (command ctx) in
  let msg :=
    "Missing option group decorator in '" +:+ cmd_name (command ctx)
    +:+ "' command for the following grouped options:" +:+ newline
    +:+ join newline ((λ p, "  " +:+ get_error_hint (decls_of p))
                        <$> reverse (placeholders_of w callback))
    +:+ newline in
  let w' := match not_attached_options w !! cb_id callback with
            | Some _ => w
            | None => set_not_attached_options (<[cb_id callback := []]>) w
            end in
  handle_parse_result get_error_hint dest_name (NotAttachedOption oid decls) ctx opts args w
    = (Raise (TypeError msg), w') ∧
  get_help_record get_error_hint (NotAttachedOption oid decls) ctx w
    = (Raise (TypeError msg), w').
Proof.
  intros callback msg w'. simpl.
  assert (raise_error get_error_hint (A := unit) ctx w = (Raise (TypeError msg), w')) as Hrun.
  { subst msg w'. unfold placeholders_of. fold callback.
    destruct (not_attached_options w !! cb_id callback) as [nas|] eqn:Hna.
    - rewrite (raise_error_spec get_error_hint ctx w nas Hna). simpl.
      unfold missing_group_message. by rewrite <- list_fmap_compose.
    - unfold raise_error, not_attached_getitem. unfold_M. fold callback. by rewrite Hna. }
  by split.
Qed.

End PlaceholderFacts.
(** ** The lookups of the group decorator *)

Lemma check_mixing_outcome (callback : Callback) (stack : list OptionStackItem)
    (params : list Param) (w : World) :
  check_mixing_decorators callback stack params w = (Ok tt, w) ∨
  ∃ wrong_option,
    last params = Some wrong_option ∧
    check_mixing_decorators callback stack params w =
      (Raise (TypeError (mixing_decorators_message wrong_option callback)), w).
Proof.
  unfold check_mixing_decorators. destruct (last stack) as [item|]; [|by left].
  case_decide as Hlt; [|by left].
  destruct (last params) as [p|] eqn:Hp; [right; by eexists|].
  apply last_None in Hp. subst. simpl in Hlt. lia.
Qed.

(** X9. On a store that decorating can produce, with something pending
    for the callback, the lookups of the group decorator do not fail:
    the [pop] without default finds the key in both dictionaries, the
    second one giving the listed placeholders; [params.remove] finds
    each of them, and the parameters left are the recorded ones without
    the placeholders, in their order; the re-check either passes or
    raises the mis-ordering [TypeError], [params[-1]] being there
    whenever it is read.  So the decorator is the re-check, the
    constructor and the attach loop run on that store; what the class
    raises is not part of this statement. *)
Theorem group_decorator_lookups_succeed (w : World) (func : Callback)
    (stack : list OptionStackItem) :
  reachable w →
  decorating_state w !! cb_id func = Some stack →
  let nas := placeholders_of w func in
  let w1 := set_decorating_state (delete (cb_id func)) w in
  let w2 := set_not_attached_options (delete (cb_id func)) w1 in
  let w3 := drained w func nas (filter_not_attached (params_of w func)) in
  decorating_state_pop func w = (Ok stack, w1) ∧
  not_attached_pop func w1 = (Ok nas, w2) ∧
  for_each (params_remove func) nas w2 = (Ok tt, w3) ∧
  params_of w3 func = filter_not_attached (params_of w func) ∧
  (check_mixing_decorators func stack (filter_not_attached (params_of w3 func)) w3
     = (Ok tt, w3) ∨
   ∃ wrong_option,
     last (filter_not_attached (params_of w3 func)) = Some wrong_option ∧
     check_mixing_decorators func stack (filter_not_attached (params_of w3 func)) w3 =
       (Raise (TypeError (mixing_decorators_message wrong_option func)), w3)) ∧
  ∀ name help cls kwargs,
    group_decorator name cls help kwargs func w =
      (check_mixing_decorators func stack (filter_not_attached (params_of w3 func)) ;;
       option_group ← construct_group cls name (dict_set "help" (help_val help) kwargs);
       for_rebind (λ item, OptionGroup_option option_group (param_decls item) (attrs item))
                  stack func) w3.
Proof.
  intros Hreach Hst nas w1 w2 w3.
  pose proof (reachable_consistent w Hreach) as Hcons.
  pose proof (reachable_in_step w Hreach) as Hinv.
  destruct (group_decorator_pending_exact w func None None OptionGroup_class [] stack
              Hcons Hinv Hst) as [Hna _].
  assert (remove_all nas (params_of w func) = Some (filter_not_attached (params_of w func)))
    as Hrm.
  { destruct (Hinv (cb_id func)) as (Hp & _). simpl in Hp.
    fold (params_of w func) (placeholders_of w func) in Hp. fold nas in Hp.
    rewrite <- Hp. apply remove_all_exact. }
  assert (params_of w3 func = filter_not_attached (params_of w func)) as Hp3
    by (by apply drained_params).
  split; [unfold decorating_state_pop; by rewrite Hst|].
  split; [unfold not_attached_pop; subst w1; simpl; by rewrite Hna|].
  split; [by rewrite (for_each_params_remove nas (filter_not_attached (params_of w func)))|].
  split; [exact Hp3|]. split; [apply check_mixing_outcome|].
  intros name help cls kwargs. rewrite Hp3.
  by destruct (group_decorator_pending_exact w func name help cls kwargs stack
                 Hcons Hinv Hst) as [_ ->].
Qed.

Lemma group_decorator_lookups_succeed_witness :
  reachable mixed_world ∧
  decorating_state mixed_world !! cb_id cli
    = Some [{| param_decls := ["--bar"]; attrs := []; param_count := 0 |}] ∧
  (let w3 := drained mixed_world cli [NotAttachedOption 0 ["--bar"]]
                     [ClickOption ["--hello"]] in
   for_each (params_remove cli) [NotAttachedOption 0 ["--bar"]]
            (set_not_attached_options (delete (cb_id cli))
               (set_decorating_state (delete (cb_id cli)) mixed_world)) = (Ok tt, w3) ∧
   params_of w3 cli = [ClickOption ["--hello"]] ∧
   check_mixing_decorators cli [{| param_decls := ["--bar"]; attrs := []; param_count := 0 |}]
                           [ClickOption ["--hello"]] w3 =
     (Raise (TypeError (mixing_decorators_message (ClickOption ["--hello"]) cli)), w3)).
Proof.
  split; [exact reachable_mixed_world|]. split; [reflexivity|].
  destruct (group_decorator_lookups_succeed mixed_world cli
              [{| param_decls := ["--bar"]; attrs := []; param_count := 0 |}]
              reachable_mixed_world eq_refl) as (_ & _ & Hrm & Hp & Hcheck & _).
  split; [exact Hrm|]. split; [exact Hp|].
  destruct Hcheck as [Hok|(wrong_option & Hlast & Hraise)].
  - vm_compute in Hok. discriminate.
  - injection Hlast as <-. exact Hraise.
Defined.

(** ** Declaring a group both ways *)

Lemma placeholders_among_markers (k : nat) (ds : list Decl) :
  placeholders_among (markers k ds) = markers k ds.
Proof.
  revert k. induction ds as [|d rest IH]; intros k; [done|].
  simpl. unfold placeholders_among in *. rewrite filter_cons_True by done. by rewrite IH.
Qed.

(** A run of grouped-option decorators on [func] leaves the entries of
    the other callbacks, and the parameters of the other functions. *)
Lemma fire_option_decorators_others (ds : list Decl) (func : Callback) (w : World) (id : nat) :
  id ≠ cb_id func →
  let w' := snd (fire (option_decorator <$> ds) func w) in
  decorating_state w' !! id = decorating_state w !! id ∧
  not_attached_options w' !! id = not_attached_options w !! id ∧
  click_params w' !! id = click_params w !! id.
Proof.
  intros Hid. revert w. induction ds as [|d rest IH]; intros w; [done|].
  rewrite fmap_cons, fire_cons. unfold option_decorator at 1.
  destruct (option_decorator_step w func (fst d) (snd d)) as [Hok|[p Hraise]].
  - rewrite Hok. destruct (IH (snd (optgroup_option (fst d) (snd d) func w)))
      as (Hd & Hn & Hp).
    rewrite Hok in Hd, Hn, Hp. simpl in Hd, Hn, Hp. simpl. rewrite Hd, Hn, Hp.
    by rewrite !lookup_insert_ne.
  - by rewrite Hraise.
Qed.

Lemma group_decorator_others (w : World) (func : Callback) (name help : option string)
    (cls : PyClass) (kwargs : Dict) (id : nat) :
  reachable w →
  id ≠ cb_id func →
  click_params (snd (group_decorator name cls help kwargs func w)) !! id = click_params w !! id.
Proof.
  intros Hreach Hid.
  pose proof (reachable_consistent w Hreach) as Hcons.
  pose proof (reachable_in_step w Hreach) as Hinv.
  destruct (decorating_state w !! cb_id func) as [stack|] eqn:Hst.
  - destruct (group_decorator_pending_exact w func name help cls kwargs stack Hcons Hinv Hst)
      as [_ ->].
    destruct (group_stages_untouched func name help cls kwargs stack
                (filter_not_attached (filter_not_attached (params_of w func))))
      as [Hframe _].
    destruct (Hframe (drained w func (placeholders_of w func)
                        (filter_not_attached (params_of w func)))) as (_ & _ & Hother).
    rewrite (Hother id Hid). unfold drained. destruct (placeholders_of w func); simpl; [done|].
    by rewrite lookup_insert_ne.
  - by rewrite group_decorator_empty.
Qed.

Lemma reachable_fire_option_decorators (ds : list Decl) (func : Callback) (w : World) :
  reachable w → reachable (snd (fire (option_decorator <$> ds) func w)).
Proof.
  revert w. induction ds as [|d rest IH]; intros w Hreach; [done|].
  rewrite fmap_cons, fire_cons. unfold option_decorator at 1.
  pose proof (reach_optgroup_option w (fst d) (snd d) func Hreach) as Hstep.
  destruct (option_decorator_step w func (fst d) (snd d)) as [Hok|[p Hraise]].
  - rewrite Hok in *. by apply IH.
  - by rewrite Hraise in *.
Qed.

(** Grouped options fired on a callback with nothing pending, then the
    group decorator: the placeholders come and go, the group is created
    and the options are attached in firing order. *)
Lemma declared_group_run (w0 : World) (func : Callback) (fired : list Decl)
    (name help : option string) (c : PyClass) (kwargs : Dict) :
  fired ≠ [] →
  reachable w0 →
  stack_of w0 func = [] →
  cls_init_error c name (dict_set "help" (help_val help) kwargs) = None →
  Forall (λ d, cls_option_error c (fst d) (snd d) = None) fired →
  let stack := item_of (length (filter_not_attached (params_of w0 func))) <$> fired in
  ∃ w1 w,
    fire (option_decorator <$> fired) func w0 = (Ok func, w1) ∧
    reachable w1 ∧
    group_decorator name c help kwargs func w1 = (Ok func, w) ∧
    groups w =
      groups w0 ++ [{| g_class := c; g_name := default EmptyString name;
                       g_help := help_of (dict_set "help" (help_val help) kwargs);
                       g_options := member_of <$> stack |}] ∧
    params_of w func = params_of w0 func ++ (grouped_of (length (groups w0)) <$> stack) ∧
    decorating_state w = delete (cb_id func) (decorating_state w1) ∧
    not_attached_options w = delete (cb_id func) (not_attached_options w1) ∧
    warned w = warned w0.
Proof.
  intros Hne Hreach Hs0 Hinit Hopts stack.
  destruct (reachable_no_pending w0 func Hreach Hs0) as [Hst0 Hna0].
  assert (placeholders_of w0 func = []) as Hn0 by (unfold placeholders_of; by rewrite Hna0).
  assert (placeholders_among (params_of w0 func) = []) as Hpa0.
  { destruct (reachable_in_step w0 Hreach (cb_id func)) as (Hpa & _). simpl in Hpa.
    rewrite Hna0 in Hpa. exact Hpa. }
  pose proof (filter_not_attached_id _ Hpa0) as Hp0.
  destruct (fire_option_decorators fired func w0)
    as (w1 & Hrun & Hs & Hn & Hp & Hsome & Hg & Hw).
  { by rewrite Hs0. }
  rewrite Hs0 in Hs. rewrite Hn0 in Hn. simpl in Hs, Hn.
  destruct (Hsome Hne) as [Hsome1 Hsome2].
  apply stack_of_lookup in Hsome1. apply placeholders_of_lookup in Hsome2.
  rewrite Hs in Hsome1. rewrite Hn in Hsome2. fold stack in Hsome1.
  assert (reachable w1) as Hreach1.
  { pose proof (reachable_fire_option_decorators fired func w0 Hreach) as Hr.
    by rewrite Hrun in Hr. }
  assert (placeholders_among (params_of w1 func) = markers (next_oid w0) fired) as Hms.
  { by rewrite Hp, placeholders_among_app, placeholders_among_markers, Hpa0. }
  assert (remove_all (markers (next_oid w0) fired) (params_of w1 func)
          = Some (params_of w0 func)) as Hrm.
  { rewrite <- Hms, remove_all_exact. f_equal.
    by rewrite Hp, filter_not_attached_app, filter_not_attached_markers, app_nil_r. }
  destruct (group_decorator_attaches w1 func name help c kwargs stack
              (markers (next_oid w0) fired) (params_of w0 func))
    as (w & Hgrp & Hgd & Hpd & Hdd & Hnd & Hwd); try done.
  { intros item Hlast. apply last_Some_elem_of, list_elem_of_fmap in Hlast as (d & -> & _).
    simpl. by rewrite Hp0. }
  { apply Forall_fmap. done. }
  exists w1, w. rewrite Hgd, Hpd, Hdd, Hnd, Hwd, Hg, Hw. done.
Qed.

(** X10. On a callback with nothing pending, declaring a group with the
    decorators of [optgroup] builds what the imperative interface builds
    from the same class, name, attributes and declarations: the same
    groups with the same options in the same order, the same parameters
    recorded for every function, the same two dictionaries and no
    warning. *)
Theorem declarative_matches_imperative (w0 : World) (func : Callback) (visible : list Decl)
    (name help : option string) (cls : option PyClass) (kwargs : Dict) :
  visible ≠ [] →
  reachable w0 →
  stack_of w0 func = [] →
  cls_is_option_group (default OptionGroup_class cls) = true →
  cls_init_error (default OptionGroup_class cls) name
                 (dict_set "help" (help_val help) kwargs) = None →
  Forall (λ d, cls_option_error (default OptionGroup_class cls) (fst d) (snd d) = None)
         visible →
  ∃ d w_decl w_imp,
    optgroup_group name cls help kwargs = Ok d ∧
    decorate (d :: (option_decorator <$> visible)) func w0 = (Ok func, w_decl) ∧
    imperative (default OptionGroup_class cls) name (dict_set "help" (help_val help) kwargs)
               visible func w0 = (Ok func, w_imp) ∧
    groups w_decl = groups w_imp ∧
    (∀ f, params_of w_decl f = params_of w_imp f) ∧
    decorating_state w_decl = decorating_state w_imp ∧
    not_attached_options w_decl = not_attached_options w_imp ∧
    warned w_decl = warned w_imp.
Proof.
  intros Hne Hreach Hs0 Hsub Hinit Hopts.
  destruct (reachable_no_pending w0 func Hreach Hs0) as [Hst0 Hna0].
  assert (optgroup_group name cls help kwargs =
            Ok (group_decorator name (default OptionGroup_class cls) help kwargs))
    as Hfactory.
  { unfold optgroup_group. destruct cls as [c'|]; [|done]. simpl in *. by rewrite Hsub. }
  set (c := default OptionGroup_class cls) in *.
  set (kw := dict_set "help" (help_val help) kwargs) in *.
  assert (reverse visible ≠ []) as Hrev.
  { intros Hr. apply (f_equal reverse) in Hr. by rewrite reverse_involutive in Hr. }
  apply Forall_reverse in Hopts.
  (* the declarative run: the grouped options, then the group decorator *)
  destruct (declared_group_run w0 func (reverse visible) name help c kwargs
              Hrev Hreach Hs0 Hinit Hopts)
    as (w1 & w_decl & Hrun & Hreach1 & Hgrp & Hgd & Hpd & Hdd & Hnd & Hwd).
  set (stack := item_of (length (filter_not_attached (params_of w0 func)))
                  <$> reverse visible) in *.
  (* the imperative run: the constructor, then the options of the group *)
  set (g0 := {| g_class := c; g_name := default EmptyString name; g_help := help_of kw;
                g_options := [] |}).
  set (w0' := set_groups (λ gs, gs ++ [g0]) w0).
  destruct (attach_all stack w0' func (groups w0) g0)
    as (w_imp & Hrun_i & Hgi & Hpi & Hdi & Hni & Hwi).
  { done. }
  { apply Forall_fmap. done. }
  pose proof (frames_attach_loop (length (groups w0)) stack func w0') as (_ & _ & Himp).
  rewrite Hrun_i in Himp. simpl in Himp.
  unfold stack in Hrun_i. rewrite for_rebind_fmap in Hrun_i. simpl in Hrun_i.
  exists (group_decorator name c help kwargs), w_decl, w_imp.
  split; [exact Hfactory|]. split; [|split; [|split; [|split; [|split; [|split]]]]].
  - unfold decorate. rewrite reverse_cons, fire_app, <- fmap_reverse, Hrun.
    rewrite fire_cons, Hgrp. reflexivity.
  - unfold imperative, construct_group. fold kw. rewrite Hinit. unfold new_group. unfold_M.
    simpl. fold g0 w0'. unfold decorate, fire. rewrite <- fmap_reverse, for_rebind_fmap.
    exact Hrun_i.
  - rewrite Hgd, Hgi. done.
  - intros f. destruct (decide (cb_id f = cb_id func)) as [Hf|Hf].
    + unfold params_of. rewrite Hf. fold (params_of w_decl func) (params_of w_imp func).
      rewrite Hpd, Hpi. done.
    + unfold params_of.
      pose proof (group_decorator_others w1 func name help c kwargs (cb_id f) Hreach1 Hf)
        as Hothers.
      rewrite Hgrp in Hothers. simpl in Hothers. rewrite Hothers.
      destruct (fire_option_decorators_others (reverse visible) func w0 (cb_id f) Hf)
        as (_ & _ & Hclick).
      rewrite Hrun in Hclick. simpl in Hclick. rewrite Hclick.
      by rewrite (Himp (cb_id f) Hf).
  - rewrite Hdd, Hdi. apply map_eq. intros id.
    destruct (decide (id = cb_id func)) as [->|Hid].
    + by rewrite lookup_delete_eq.
    + rewrite lookup_delete_ne by done.
      destruct (fire_option_decorators_others (reverse visible) func w0 id Hid)
        as (Hd & _). by rewrite Hrun in Hd.
  - rewrite Hnd, Hni. apply map_eq. intros id.
    destruct (decide (id = cb_id func)) as [->|Hid].
    + by rewrite lookup_delete_eq.
    + rewrite lookup_delete_ne by done.
      destruct (fire_option_decorators_others (reverse visible) func w0 id Hid)
        as (_ & Hnn & _). by rewrite Hrun in Hnn.
  - by rewrite Hwd, Hwi.
Qed.

Lemma declarative_matches_imperative_witness :
  ∃ d w_decl w_imp,
    optgroup_group (Some "Second") None None [] = Ok d ∧
    decorate (d :: (option_decorator <$> foo_bar)) cli grouped_world = (Ok cli, w_decl) ∧
    imperative OptionGroup_class (Some "Second") (dict_set "help" (help_val None) [])
               foo_bar cli grouped_world = (Ok cli, w_imp) ∧
    groups w_decl = groups w_imp ∧
    (∀ f, params_of w_decl f = params_of w_imp f) ∧
    decorating_state w_decl = decorating_state w_imp ∧
    not_attached_options w_decl = not_attached_options w_imp ∧
    warned w_decl = warned w_imp.
Proof.
  apply (declarative_matches_imperative grouped_world cli foo_bar (Some "Second") None None []).
  - discriminate.
  - exact reachable_grouped_world.
  - reflexivity.
  - reflexivity.
  - reflexivity.
  - repeat constructor.
Defined.

(** ** Several functions, several groups *)

Lemma group_decorator_same_for (w : World) (func other : Callback) (name help : option string)
    (cls : PyClass) (kwargs : Dict) :
  reachable w →
  cb_id other ≠ cb_id func →
  same_for other w (snd (group_decorator name cls help kwargs func w)).
Proof.
  intros Hreach Hid.
  pose proof (reachable_consistent w Hreach) as Hcons.
  pose proof (reachable_in_step w Hreach) as Hinv.
  destruct (decorating_state w !! cb_id func) as [stack|] eqn:Hst.
  - destruct (group_decorator_pending_exact w func name help cls kwargs stack Hcons Hinv Hst)
      as [_ ->].
    destruct (group_stages_untouched func name help cls kwargs stack
                (filter_not_attached (filter_not_attached (params_of w func))))
      as [Hframe _].
    destruct (Hframe (drained w func (placeholders_of w func)
                        (filter_not_attached (params_of w func)))) as (Hd & Hn & Hother).
    unfold same_for. rewrite Hd, Hn, (Hother (cb_id other) Hid). unfold drained.
    destruct (placeholders_of w func); simpl; rewrite !lookup_delete_ne by done;
      [done|by rewrite lookup_insert_ne].
  - by rewrite group_decorator_empty.
Qed.

(** X11. The decorators act on the function they decorate only: in a
    store that decorating can produce, a foreign option decorator, a
    grouped-option decorator and a group decorator applied to one
    function, whether they return or raise, leave the pending stack, the
    listed placeholders and the recorded parameters of every function
    with another callback as they were, missing entries included. *)
Theorem decorators_are_local (w : World) (func other : Callback) :
  reachable w →
  cb_id other ≠ cb_id func →
  (∀ decls, same_for other w (snd (click_option decls func w))) ∧
  (∀ decls oattrs, same_for other w (snd (optgroup_option decls oattrs func w))) ∧
  (∀ name cls help kwargs,
     same_for other w (snd (group_decorator name cls help kwargs func w))).
Proof.
  intros Hreach Hid. split; [|split].
  - intros decls. rewrite click_option_spec. unfold same_for. simpl.
    by rewrite lookup_insert_ne.
  - intros decls oattrs.
    destruct (option_decorator_step w func decls oattrs) as [Hok|[p Hraise]].
    + rewrite Hok. unfold same_for. simpl. by rewrite !lookup_insert_ne.
    + by rewrite Hraise.
  - intros name cls help kwargs. by apply group_decorator_same_for.
Qed.

Lemma decorators_are_local_witness :
  (∀ decls, same_for subcommand mixed_world (snd (click_option decls cli mixed_world))) ∧
  (∀ decls oattrs,
     same_for subcommand mixed_world (snd (optgroup_option decls oattrs cli mixed_world))) ∧
  (∀ name cls help kwargs,
     same_for subcommand mixed_world
              (snd (group_decorator name cls help kwargs cli mixed_world))).
Proof.
  apply (decorators_are_local mixed_world cli subcommand).
  - exact reachable_mixed_world.
  - discriminate.
Defined.

Lemma reverse_block_decorators (b : Block) :
  reverse (block_decorators b) = fired_block b.
Proof.
  unfold block_decorators, fired_block.
  by rewrite reverse_app, reverse_cons, <- !fmap_reverse, <- app_assoc.
Qed.

Lemma reverse_blocks_decorators (blocks : list Block) :
  reverse (concat (block_decorators <$> blocks)) = concat (fired_block <$> reverse blocks).
Proof.
  induction blocks as [|b rest IH]; [done|].
  rewrite fmap_cons, reverse_cons, fmap_app, concat_app. simpl.
  by rewrite reverse_app, IH, reverse_block_decorators, app_nil_r.
Qed.

(** One block, fired on a callback with nothing pending. *)
Lemma fire_block (w0 : World) (func : Callback) (b : Block) :
  reachable w0 →
  stack_of w0 func = [] →
  block_ok b →
  ∃ w,
    fire (fired_block b) func w0 = (Ok func, w) ∧
    reachable w ∧ stack_of w func = [] ∧
    groups w = groups w0 ++ [group_of_block b] ∧
    warned w = warned w0 ∧
    params_of w func = params_of w0 func ++ fired_params (length (groups w0)) [b].
Proof.
  intros Hreach Hs0 (Hne & Hinit & Hopts).
  assert (reverse (b_options b) ≠ []) as Hrev.
  { intros Hr. apply (f_equal reverse) in Hr. by rewrite reverse_involutive in Hr. }
  apply Forall_reverse in Hopts.
  destruct (declared_group_run w0 func (reverse (b_options b)) (b_name b) (b_help b)
              (b_cls b) (b_kwargs b) Hrev Hreach Hs0 Hinit Hopts)
    as (w1 & w2 & Hrun & Hreach1 & Hgrp & Hg2 & Hp2 & Hd2 & Hn2 & Hw2).
  destruct (fire_click_options (reverse (b_above b)) func w2)
    as (w3 & Hrun3 & Hp3 & Hd3 & Hn3 & Hg3 & Hw3).
  exists w3. split; [|split; [|split; [|split; [|split]]]].
  - unfold fired_block. by rewrite fire_app, Hrun, fire_cons, Hgrp.
  - pose proof (reach_group_decorator w1 (b_name b) (b_cls b) (b_help b) (b_kwargs b) func
                  Hreach1) as Hreach2.
    rewrite Hgrp in Hreach2.
    pose proof (reachable_fire_click_options (reverse (b_above b)) func w2 Hreach2) as Hr.
    by rewrite Hrun3 in Hr.
  - unfold stack_of. by rewrite Hd3, Hd2, lookup_delete_eq.
  - rewrite Hg3, Hg2. unfold group_of_block. by rewrite <- !list_fmap_compose.
  - by rewrite Hw3, Hw2.
  - rewrite Hp3, Hp2. simpl. rewrite app_nil_r, <- app_assoc, <- !list_fmap_compose. done.
Qed.

Lemma fire_blocks (fired : list Block) (w0 : World) (func : Callback) :
  reachable w0 →
  stack_of w0 func = [] →
  Forall block_ok fired →
  ∃ w,
    fire (concat (fired_block <$> fired)) func w0 = (Ok func, w) ∧
    reachable w ∧ stack_of w func = [] ∧
    groups w = groups w0 ++ (group_of_block <$> fired) ∧
    warned w = warned w0 ∧
    params_of w func = params_of w0 func ++ fired_params (length (groups w0)) fired.
Proof.
  revert w0. induction fired as [|b rest IH]; intros w0 Hreach Hs0 Hok.
  - exists w0. by rewrite !app_nil_r.
  - apply Forall_cons in Hok as [Hb Hrest].
    destruct (fire_block w0 func b Hreach Hs0 Hb)
      as (w1 & Hrun1 & Hreach1 & Hs1 & Hg1 & Hw1 & Hp1).
    destruct (IH w1 Hreach1 Hs1 Hrest) as (w & Hrun & Hreach' & Hs & Hg & Hw & Hp).
    exists w. split; [|split; [done|split; [done|split; [|split]]]].
    + rewrite fmap_cons. simpl. by rewrite fire_app, Hrun1.
    + rewrite Hg, Hg1, <- app_assoc. done.
    + by rewrite Hw, Hw1.
    + rewrite Hp, Hp1, Hg1, length_app. simpl. rewrite app_nil_r, Nat.add_1_r.
      by rewrite <- !app_assoc.
Qed.

(** X12. A decorator list written as the docstring of [_OptGroup] writes
    it is accepted as a whole: when every group decorator stands
    directly above its own grouped options, with foreign options only
    above a group decorator, and nothing is pending for the callback,
    no decorator raises and none warns; every block gets its own group,
    the lowest block first, holding its options in firing order; the
    parameters recorded are those of the blocks, and nothing is left
    pending nor any placeholder recorded. *)
Theorem stacked_groups_accepted (w0 : World) (func : Callback) (blocks : list Block) :
  reachable w0 →
  stack_of w0 func = [] →
  Forall block_ok blocks →
  ∃ w,
    decorate (concat (block_decorators <$> blocks)) func w0 = (Ok func, w) ∧
    groups w = groups w0 ++ (group_of_block <$> reverse blocks) ∧
    params_of w func =
      params_of w0 func ++ fired_params (length (groups w0)) (reverse blocks) ∧
    warned w = warned w0 ∧
    stack_of w func = [] ∧ placeholders_of w func = [] ∧
    placeholders_among (params_of w func) = [].
Proof.
  intros Hreach Hs0 Hok. apply Forall_reverse in Hok.
  destruct (fire_blocks (reverse blocks) w0 func Hreach Hs0 Hok)
    as (w & Hrun & Hreach' & Hs & Hg & Hw & Hp).
  exists w. unfold decorate. rewrite reverse_blocks_decorators.
  destruct (reachable_no_pending w func Hreach' Hs) as [_ Hna].
  assert (placeholders_of w func = []) as Hn by (unfold placeholders_of; by rewrite Hna).
  repeat split; try done.
  destruct (reachable_in_step w Hreach' (cb_id func)) as (Hpa & _). simpl in Hpa.
  by rewrite Hna in Hpa.
Qed.

Lemma stacked_groups_accepted_witness :
  ∃ w,
    decorate (concat (block_decorators <$> docstring_blocks)) cli empty_world = (Ok cli, w) ∧
    groups w = groups empty_world ++ (group_of_block <$> reverse docstring_blocks) ∧
    params_of w cli =
      params_of empty_world cli
      ++ fired_params (length (groups empty_world)) (reverse docstring_blocks) ∧
    warned w = warned empty_world ∧
    stack_of w cli = [] ∧ placeholders_of w cli = [] ∧
    placeholders_among (params_of w cli) = [].
Proof.
  apply (stacked_groups_accepted empty_world cli docstring_blocks).
  - exact reach_empty.
  - reflexivity.
  - repeat constructor; discriminate.
Defined.

(** ** The placeholders and the parser *)

Section DeferredError.

Variable get_error_hint : list string → string.
Variable dest_name : list string → string.
Variable fake_option_name : nat → string.
Variable parse_args : list (list string) → list string → Res (Values * list string).
Variable extra_arguments_message : list string → string.

(** A pass over parameters that hold a placeholder and no grouped option
    raises the error of the placeholder, whichever hook is called. *)
Lemma placeholder_pass_raises (cmd : Command) (w : World) (nas : list Param)
    (body : Param → M unit) :
  not_attached_options w !! cb_id (cmd_callback cmd) = Some nas →
  (∃ p, p ∈ cmd_params cmd ∧ is_not_attached p = true) →
  (∀ q, is_not_attached q = true →
        body q w = raise_error get_error_hint {| command := cmd |} w) →
  (∀ q, q ∈ cmd_params cmd → is_not_attached q = false → body q w = (Ok tt, w)) →
  for_each body (cmd_params cmd) w =
    (Raise (TypeError
              (missing_group_message (cmd_name cmd)
                 (join newline (hint_line get_error_hint <$> (decls_of <$> reverse nas))))), w).
Proof.
  intros Hna (p & Hin & Hp) Hmark Hother.
  etransitivity;
    [|exact (raise_error_spec get_error_hint (A := unit) {| command := cmd |} w nas Hna)].
  revert Hin Hother. generalize (cmd_params cmd) as l.
  induction l as [|q rest IH]; intros Hin Hother.
  - by apply elem_of_nil in Hin.
  - simpl. unfold mbind, M_bind.
    destruct (is_not_attached q) eqn:Hq.
    + rewrite (Hmark q Hq). by rewrite (raise_error_spec _ _ _ nas).
    + rewrite (Hother q) by (done || apply elem_of_cons; by left). apply IH.
      * apply elem_of_cons in Hin as [->|Hin]; [congruence|done].
      * intros q' Hq'. apply Hother. apply elem_of_cons. by right.
Qed.

Lemma registered_decls_markers (k : nat) (ds : list Decl) :
  registered_decls fake_option_name <$> markers k ds =
    (λ oid, [fake_option_name oid]) <$> seq k (length ds).
Proof.
  revert k. induction ds as [|d rest IH]; intros k; [done|].
  simpl. by rewrite IH.
Qed.

(** X13. Grouped options declared, top to bottom, as [visible] under
    foreign options [above], on a function that so far has foreign
    options only and nothing pending, and no group decorator before the
    command is built.  The placeholders are registered under their
    made-up names: the declaration strings given to [optgroup.option]
    are not among those that the parser of the command is given.  Every
    time the help is requested, and every time the command is invoked
    with arguments that the parser accepts, whatever values it resolved
    and whatever it left over, the [TypeError] is raised that lists the
    declarations of [visible] in their order; arguments that the parser
    rejects end in its usage error, and no hook runs.  The store is never
    changed, so a later pass fares as the first. *)
Theorem deferred_error_after_parser (w0 : World) (func : Callback)
    (above : list (list string)) (visible : list Decl) :
  visible ≠ [] →
  reachable w0 →
  stack_of w0 func = [] →
  Forall (λ p, is_grouped p = false) (params_of w0 func) →
  ∃ w,
    decorate ((click_option <$> above) ++ (option_decorator <$> visible)) func w0
      = (Ok func, w) ∧
    registered_decls fake_option_name <$> params_of w func =
      (decls_of <$> params_of w0 func)
      ++ ((λ oid, [fake_option_name oid]) <$> seq (next_oid w0) (length visible))
      ++ reverse above ∧
    ∀ cmd rs,
      command_from w func cmd →
      let missing :=
        Raise (TypeError
                 ("Missing option group decorator in '" +:+ cmd_name cmd
                  +:+ "' command for the following grouped options:" +:+ newline
                  +:+ join newline ((λ d, "  " +:+ get_error_hint (fst d)) <$> visible)
                  +:+ newline)) in
      session get_error_hint dest_name fake_option_name parse_args extra_arguments_message
              cmd rs w =
        ((λ r, match r with
               | Help => missing
               | Invoke args =>
                   match parse_args (registered_decls fake_option_name <$> cmd_params cmd)
                                    args with
                   | Ok _ => missing
                   | Raise e => Raise e
                   end
               end) <$> rs, w).
Proof.
  intros Hne Hreach Hs0 Hforeign.
  destruct (reachable_no_pending w0 func Hreach Hs0) as [_ Hna0].
  assert (placeholders_of w0 func = []) as Hn0 by (unfold placeholders_of; by rewrite Hna0).
  assert (placeholders_among (params_of w0 func) = []) as Hpa0.
  { destruct (reachable_in_step w0 Hreach (cb_id func)) as (Hpa & _). simpl in Hpa.
    by rewrite Hna0 in Hpa. }
  assert (reverse visible ≠ []) as Hrev.
  { intros Hr. apply (f_equal reverse) in Hr. by rewrite reverse_involutive in Hr. }
  destruct (fire_option_decorators (reverse visible) func w0)
    as (w1 & Hrun1 & _ & Hn1 & Hp1 & Hsome & _).
  { by rewrite Hs0. }
  destruct (Hsome Hrev) as [_ Hsome2].
  apply placeholders_of_lookup in Hsome2. rewrite Hn1, Hn0 in Hsome2. simpl in Hsome2.
  destruct (fire_click_options (reverse above) func w1)
    as (w2 & Hrun2 & Hp2 & _ & Hn2 & _).
  exists w2. split; [|split].
  - unfold decorate.
    by rewrite reverse_app, <- !fmap_reverse, fire_app, Hrun1, Hrun2.
  - rewrite Hp2, Hp1, !fmap_app, registered_decls_markers, length_reverse, <- app_assoc.
    f_equal; [|f_equal].
    + apply Forall_fmap_ext_1. clear -Hforeign Hpa0.
      induction (params_of w0 func) as [|p l IH]; [done|].
      apply Forall_cons in Hforeign as [Hp Hl].
      unfold placeholders_among in Hpa0. rewrite filter_cons in Hpa0.
      destruct p as [decls|oid decls|gid decls oattrs]; simpl in *; try done.
      constructor; [done|]. by apply IH.
    + rewrite <- list_fmap_compose. generalize (reverse above) as l.
      induction l as [|a l IH]; [done|]. rewrite fmap_cons, IH. done.
  - intros cmd rs [Hcb Hperm] missing.
    assert (not_attached_options w2 !! cb_id (cmd_callback cmd)
            = Some (markers (next_oid w0) (reverse visible))) as Hna
      by (by rewrite Hcb, Hn2).
    assert (∃ p, p ∈ cmd_params cmd ∧ is_not_attached p = true) as Hmark.
    { destruct (reverse visible) as [|d rest] eqn:Hrv; [done|].
      exists (NotAttachedOption (next_oid w0) (fst d)). split; [|done].
      rewrite Hperm, Hp2, Hp1. simpl.
      apply elem_of_app; left. apply elem_of_app; right. apply elem_of_cons; by left. }
    assert (∀ q, q ∈ cmd_params cmd → is_not_attached q = false →
                 ∃ decls, q = ClickOption decls) as Hplain.
    { intros q Hq Hnq. rewrite Hperm, Hp2, Hp1 in Hq.
      apply elem_of_app in Hq as [Hq|Hq]; [apply elem_of_app in Hq as [Hq|Hq]|].
      - rewrite Forall_forall in Hforeign. specialize (Hforeign q Hq).
        destruct q; simpl in *; try done. by eexists.
      - pose proof (markers_not_attached (next_oid w0) (reverse visible)) as Hall.
        rewrite Forall_forall in Hall. specialize (Hall q Hq). congruence.
      - apply list_elem_of_fmap in Hq as (decls & -> & _). by eexists. }
    assert (missing =
              Raise (TypeError
                       (missing_group_message (cmd_name cmd)
                          (join newline
                             (hint_line get_error_hint
                                <$> (decls_of <$> reverse (markers (next_oid w0)
                                                             (reverse visible)))))))) as Hmsg.
    { subst missing. unfold missing_group_message. rewrite markers_decls_reverse.
      by rewrite <- list_fmap_compose. }
    assert (∀ r, exercise get_error_hint dest_name fake_option_name parse_args
                          extra_arguments_message cmd r w2 =
                 (match r with
                  | Help => missing
                  | Invoke args =>
                      match parse_args (registered_decls fake_option_name <$> cmd_params cmd)
                                       args with
                      | Ok _ => missing
                      | Raise e => Raise e
                      end
                  end, w2)) as Hex.
    { intros [|args]; simpl.
      - unfold format_help. rewrite Hmsg.
        apply placeholder_pass_raises; [done|done|by intros []|].
        intros q Hq Hnq. by destruct (Hplain q Hq Hnq) as [decls ->].
      - unfold resolve_parameters.
        destruct (parse_args _ args) as [[opts rest]|e]; [|done].
        unfold mbind, M_bind.
        rewrite (placeholder_pass_raises cmd w2 (markers (next_oid w0) (reverse visible)));
          [by rewrite Hmsg|done|done|by intros []|].
        intros q Hq Hnq. by destruct (Hplain q Hq Hnq) as [decls ->]. }
    clear -Hex. induction rs as [|r rest IH]; [done|].
    simpl. rewrite Hex. simpl in IH. by rewrite IH.
Qed.

End DeferredError.

Lemma deferred_error_after_parser_witness :
  session quoted_hint first_dest example_fake_name long_option_parser example_extra_message
          missing_group_cli
          [Help; Invoke ["--foo"; "foo"]; Invoke ["--hello1"; "hello1"; "extra"]; Invoke []]
          missing_group_world =
    (let missing :=
       Raise (TypeError
                ("Missing option group decorator in 'cli' command for the following grouped options:"
                 +:+ newline +:+ "  " +:+ dquote +:+ "--foo" +:+ dquote
                 +:+ newline +:+ "  " +:+ dquote +:+ "--bar" +:+ dquote
                 +:+ newline)) in
     [missing; Raise (UsageError "No such option: --foo"); missing; missing],
     missing_group_world).
Proof.
  destruct (deferred_error_after_parser quoted_hint first_dest example_fake_name
              long_option_parser example_extra_message hello2_world cli [["--hello1"]] foo_bar)
    as (w & Hrun & _ & Hsession).
  - discriminate.
  - exact reachable_hello2_world.
  - reflexivity.
  - repeat constructor.
  - assert (w = missing_group_world) as -> by (by injection Hrun as <-).
    rewrite (Hsession missing_group_cli); [reflexivity|].
    split; [reflexivity|]. simpl. apply reverse_Permutation.
Defined.

(** ** The declaration order of a group that the engine builds *)

(** X14. A group that the decorators of [optgroup] build on a callback
    with nothing pending declares its options in the order in which they
    are written, top to bottom: they are attached bottom-up, and read in
    declaration order they are the declarations of the decorator list as
    written.  A group without a name is therefore named after the
    destination names in that order, as [test_default_group_name] has
    it. *)
Theorem built_group_declaration_order (dest_name : list string → string) (w0 : World)
    (func : Callback) (visible : list Decl) (name help : option string)
    (cls : option PyClass) (kwargs : Dict) :
  visible ≠ [] →
  reachable w0 →
  stack_of w0 func = [] →
  cls_is_option_group (default OptionGroup_class cls) = true →
  cls_init_error (default OptionGroup_class cls) name
                 (dict_set "help" (help_val help) kwargs) = None →
  Forall (λ d, cls_option_error (default OptionGroup_class cls) (fst d) (snd d) = None)
         visible →
  ∃ d w g,
    optgroup_group name cls help kwargs = Ok d ∧
    decorate (d :: (option_decorator <$> visible)) func w0 = (Ok func, w) ∧
    groups w = groups w0 ++ [g] ∧
    declared_options g = (λ d, {| m_decls := fst d; m_attrs := snd d |}) <$> visible ∧
    (name = None →
     group_display_name dest_name g =
       "(" +:+ join "|" ((λ d, dest_name (fst d)) <$> visible) +:+ ")").
Proof.
  intros Hne Hreach Hs0 Hsub Hinit Hopts.
  assert (optgroup_group name cls help kwargs =
            Ok (group_decorator name (default OptionGroup_class cls) help kwargs))
    as Hfactory.
  { unfold optgroup_group. destruct cls as [c'|]; [|done]. simpl in *. by rewrite Hsub. }
  assert (reverse visible ≠ []) as Hrev.
  { intros Hr. apply (f_equal reverse) in Hr. by rewrite reverse_involutive in Hr. }
  apply Forall_reverse in Hopts.
  destruct (declared_group_run w0 func (reverse visible) name help
              (default OptionGroup_class cls) kwargs Hrev Hreach Hs0 Hinit Hopts)
    as (w1 & w & Hrun & _ & Hgrp & Hg & _).
  eexists _, w, _. split; [exact Hfactory|]. split; [|split; [exact Hg|]].
  - unfold decorate. by rewrite reverse_cons, fire_app, <- fmap_reverse, Hrun, fire_cons, Hgrp.
  - assert (∀ l : list Decl,
              reverse (member_of
                         <$> (item_of (length (filter_not_attached (params_of w0 func)))
                                <$> reverse l))
              = (λ d, {| m_decls := fst d; m_attrs := snd d |}) <$> l) as Hdecl.
    { intros l. rewrite <- list_fmap_compose.
      induction l as [|d l IH]; [done|].
      by rewrite reverse_cons, fmap_app, reverse_app, IH. }
    unfold declared_options, group_display_name. simpl. rewrite Hdecl.
    split; [done|]. intros ->. simpl. unfold declared_options. simpl. rewrite Hdecl.
    change (map ?f ?l) with (f <$> l). by rewrite <- list_fmap_compose.
Qed.

Lemma built_group_declaration_order_witness :
  ∃ d w g,
    optgroup_group None None None [] = Ok d ∧
    decorate (d :: (option_decorator <$> foo_bar)) cli empty_world = (Ok cli, w) ∧
    groups w = [g] ∧
    g_options g = [{| m_decls := ["--bar"]; m_attrs := [] |};
                   {| m_decls := ["--foo"]; m_attrs := [] |}] ∧
    declared_options g = [{| m_decls := ["--foo"]; m_attrs := [] |};
                          {| m_decls := ["--bar"]; m_attrs := [] |}] ∧
    group_display_name first_dest g = "(foo|bar)".
Proof.
  destruct (built_group_declaration_order first_dest empty_world cli foo_bar None None None [])
    as (d & w & g & Hd & Hrun & Hg & Hdecl & Hname).
  - discriminate.
  - exact reach_empty.
  - reflexivity.
  - reflexivity.
  - reflexivity.
  - repeat constructor.
  - exists d, w, g. split; [exact Hd|]. split; [exact Hrun|]. split; [exact Hg|].
    split; [|split; [exact Hdecl|exact (Hname eq_refl)]].
    unfold declared_options in Hdecl. apply (f_equal reverse) in Hdecl.
    by rewrite reverse_involutive in Hdecl.
Defined.
